(** * wpilib.kinematics: SE(2) geometry, swerve kinematics and odometry

    A shallow embedding of [wpilib/geometry] and [wpilib/kinematics].

    Numbers.  The Python code computes on [float].  Here every float is an
    ideal real number ([R]): rounding, overflow, NaN and infinities are not
    modelled, and the functions of Python's [math] module stand for their
    mathematical meaning ([math.cos], [math.sin] are [cos], [sin];
    [math.hypot] and [math.atan2] are defined below).  The one arithmetic
    fault Python raises on finite floats, division by zero, is kept where
    the source does not guard the divisor.

    Errors.  A Python exception is a value [Raise e] of the [result] type.

    numpy.  [np.linalg.pinv] is an external function; the kinematics class is
    parametrised by it (a Section variable) and its contract, the four
    Penrose equations, is the predicate [MoorePenrose]. *)

From Stdlib Require Import Reals Lra Lia List Bool Arith.
Import ListNotations.

Open Scope R_scope.

(** ** Python exceptions *)

Inductive exn : Type :=
| AssertionError
| ValueError
| IndexError
| TypeError
| ZeroDivisionError.

Inductive result (A : Type) : Type :=
| Ok (a : A)
| Raise (e : exn).

Arguments Ok {A} a.
Arguments Raise {A} e.

Definition bind {A B : Type} (m : result A) (f : A -> result B) : result B :=
  match m with
  | Ok a => f a
  | Raise e => Raise e
  end.

Notation "x <- m ;; k" := (bind m (fun x => k))
  (at level 61, m at next level, right associativity).

(** ** The [math] module over the reals *)

(** [math.hypot(x, y)] *)
Definition hypot (x y : R) : R := sqrt (x * x + y * y).

(** [math.atan2(y, x)]: the angle of the point [(x, y)], in (-pi, pi];
    [atan2(0, 0) = 0] as in C and Python. *)
Definition atan2 (y x : R) : R :=
  if Rlt_dec 0 x then atan (y / x)
  else if Rlt_dec x 0 then
         if Rle_dec 0 y then atan (y / x) + PI else atan (y / x) - PI
       else if Rlt_dec 0 y then PI / 2
            else if Rlt_dec y 0 then - (PI / 2)
                 else 0.

(** [math.isclose(a, b)] with the default [rel_tol = 1e-09], [abs_tol = 0.0]. *)
Definition isclose (a b : R) : bool :=
  if Rle_dec (Rabs (a - b)) (Rmax (1e-9 * Rmax (Rabs a) (Rabs b)) 0)
  then true else false.

(** ** geometry/rotation2d.py *)

Module Rotation2d.

(** The frozen dataclass: [value] in radians, with its cosine and sine. *)
Record t : Type := mk {
  value : R;
  cos : R;
  sin : R
}.

(** [Rotation2d()] *)
Definition default : t := mk 0 1 0.

(** [Rotation2d(value)] *)
Definition of_value (v : R) : t :=
  mk v (Rtrigo_def.cos v) (Rtrigo_def.sin v).

(** [Rotation2d(x, y)]: the components need not be normalised. *)
Definition of_xy (x y : R) : t :=
  let magnitude := hypot x y in
  let sc := if Rlt_dec 1e-6 magnitude
            then (y / magnitude, x / magnitude)
            else (0, 1) in
  mk (atan2 (fst sc) (snd sc)) (snd sc) (fst sc).

(** [__init__(self, *args)]: zero or one argument is a radian value, two
    are components; unpacking more than two values raises [ValueError]. *)
Definition init (args : list R) : result t :=
  match args with
  | [] => Ok default
  | [v] => Ok (of_value v)
  | [x; y] => Ok (of_xy x y)
  | _ => Raise ValueError
  end.

(** [math.radians] and [math.degrees] *)
Definition radians (d : R) : R := d * (PI / 180).
Definition degrees (r : R) : R := r * (180 / PI).

Definition fromDegrees (d : R) : t := of_value (radians d).

(** [__add__] *)
Definition add (self other : t) : t :=
  let cos_a := cos self in
  let cos_b := cos other in
  let sin_a := sin self in
  let sin_b := sin other in
  of_xy (cos_a * cos_b - sin_a * sin_b) (cos_a * sin_b + sin_a * cos_b).

(** [__neg__] *)
Definition neg (self : t) : t := of_value (- value self).

(** [__sub__]: [self + -other] *)
Definition sub (self other : t) : t := add self (neg other).

(** [__mul__] and [__rmul__] *)
Definition mul (self : t) (other : R) : t := of_value (value self * other).

(** [__eq__] *)
Definition eq (self other : t) : bool := isclose (value self) (value other).

Definition getRadians (self : t) : R := value self.
Definition getDegrees (self : t) : R := degrees (value self).

(** [tan]: the division is not guarded. *)
Definition tan (self : t) : result R :=
  if Req_dec_T (cos self) 0 then Raise ZeroDivisionError
  else Ok (sin self / cos self).

(** The Rotation2d values a program can obtain: the three forms of the
    constructor and the operators that return a rotation. *)
Inductive constructed : t -> Prop :=
| c_default : constructed default
| c_of_value v : constructed (of_value v)
| c_of_xy x y : constructed (of_xy x y)
| c_add a b : constructed a -> constructed b -> constructed (add a b)
| c_neg a : constructed a -> constructed (neg a)
| c_sub a b : constructed a -> constructed b -> constructed (sub a b)
| c_mul a k : constructed a -> constructed (mul a k).

End Rotation2d.

(** ** geometry/translation2d.py *)

Module Translation2d.

Record t : Type := mk {
  x : R;
  y : R
}.

(** [Translation2d()] *)
Definition default : t := mk 0 0.

Definition getDistance (self other : t) : R :=
  hypot (x other - x self) (y other - y self).

Definition norm (self : t) : R := hypot (x self) (y self).

(** [rotateBy]: multiplication by the counterclockwise rotation matrix. *)
Definition rotateBy (self : t) (other : Rotation2d.t) : t :=
  let x := x self in
  let y := y self in
  let cos := Rotation2d.cos other in
  let sin := Rotation2d.sin other in
  mk (x * cos - y * sin) (x * sin + y * cos).

Definition add (self other : t) : t :=
  mk (x self + x other) (y self + y other).

Definition sub (self other : t) : t :=
  mk (x self - x other) (y self - y other).

Definition neg (self : t) : t := mk (- x self) (- y self).

Definition mul (self : t) (other : R) : t :=
  mk (x self * other) (y self * other).

(** [__truediv__]: the division is not guarded. *)
Definition truediv (self : t) (other : R) : result t :=
  if Req_dec_T other 0 then Raise ZeroDivisionError
  else Ok (mk (x self / other) (y self / other)).

(** [__eq__] *)
Definition eq (self other : t) : bool :=
  isclose (x self) (x other) && isclose (y self) (y other).

End Translation2d.

(** ** geometry/twist2d.py *)

Module Twist2d.

Record t : Type := mk {
  dx : R;
  dy : R;
  dtheta : R
}.

Definition eq (self other : t) : bool :=
  isclose (dx self) (dx other)
  && isclose (dy self) (dy other)
  && isclose (dtheta self) (dtheta other).

End Twist2d.

(** ** geometry/__init__.py *)

Definition _identity_translation : Translation2d.t := Translation2d.default.
Definition _zero_rotation : Rotation2d.t := Rotation2d.default.

Module Transform2d.

Record t : Type := mk {
  translation : Translation2d.t;
  rotation : Rotation2d.t
}.

Definition default : t := mk _identity_translation _zero_rotation.

Definition mul (self : t) (other : R) : t :=
  mk (Translation2d.mul (translation self) other)
     (Rotation2d.mul (rotation self) other).

End Transform2d.

(** The constructors take positional arguments of any type, and only
    [Pose2d] looks at the type of one.  [pyobj] is the part of Python's
    values that reaches them: a float, [None], and the objects of the
    geometry classes; a [Translation2d] and a [Pose2d] hold whatever their
    constructor was given. *)
Inductive pyobj : Type :=
| PyFloat (x : R)
| PyNone
| PyRotation2d (r : Rotation2d.t)
| PyTranslation2d (x y : pyobj)
| PyPose2d (translation rotation : pyobj).

(** [isinstance(obj, Translation2d)] *)
Definition isinstance_Translation2d (obj : pyobj) : bool :=
  match obj with
  | PyTranslation2d _ _ => true
  | _ => false
  end.

(** [Translation2d] applied to unpacked arguments: [__init__(self, x=0,
    y=0)] stores them as they are, and more than two are a [TypeError]. *)
Definition Translation2d_of_args (args : list pyobj) : result pyobj :=
  match args with
  | [] => Ok (PyTranslation2d (PyFloat 0) (PyFloat 0))
  | [x] => Ok (PyTranslation2d x (PyFloat 0))
  | [x; y] => Ok (PyTranslation2d x y)
  | _ => Raise TypeError
  end.

Module Pose2d.

Record t : Type := mk {
  translation : Translation2d.t;
  rotation : Rotation2d.t
}.

(** [__init__(self, *args, rotation=None)] on arbitrary arguments: without
    the keyword the last positional argument is the rotation (the zero
    rotation when there is none); a single argument left is asserted to be
    a [Translation2d], otherwise the arguments go to [Translation2d]. *)
Definition init (args : list pyobj) (rotation : pyobj) : result pyobj :=
  let '(args, rotation) :=
    match rotation with
    | PyNone =>
        match rev args with
        | last :: front => (rev front, last)
        | [] => (args, PyRotation2d _zero_rotation)
        end
    | _ => (args, rotation)
    end in
  translation <-
    match args with
    | [translation] =>
        if isinstance_Translation2d translation then Ok translation
        else Raise AssertionError
    | _ => Translation2d_of_args args
    end ;;
  Ok (PyPose2d translation rotation).

(** [Pose2d()] *)
Definition default : t := mk (Translation2d.mk 0 0) _zero_rotation.

(** [Pose2d(x, y, rotation)] *)
Definition of_xy (x y : R) (rotation : Rotation2d.t) : t :=
  mk (Translation2d.mk x y) rotation.

(** [__add__]: the pose transformed by a Transform2d. *)
Definition add (self : t) (other : Transform2d.t) : t :=
  mk (Translation2d.add (translation self)
        (Translation2d.rotateBy (Transform2d.translation other)
                                (rotation self)))
     (Rotation2d.add (rotation self) (Transform2d.rotation other)).

(** [__sub__]: the transform that maps [other] to [self]. *)
Definition sub (self other : t) : Transform2d.t :=
  let translation :=
    Translation2d.rotateBy
      (Translation2d.sub (translation self) (translation other))
      (Rotation2d.neg (rotation other)) in
  let rotation := Rotation2d.sub (rotation self) (rotation other) in
  Transform2d.mk translation rotation.

Definition relativeTo (self other : t) : t :=
  let transform := sub self other in
  mk (Transform2d.translation transform) (Transform2d.rotation transform).

(** [exp]: the pose exponential. *)
Definition exp (self : t) (twist : Twist2d.t) : t :=
  let dx := Twist2d.dx twist in
  let dy := Twist2d.dy twist in
  let dtheta := Twist2d.dtheta twist in
  let sin_theta := sin dtheta in
  let cos_theta := cos dtheta in
  let sc := if Rlt_dec (Rabs dtheta) 1e-9
            then (1 - 1 / 6 * dtheta ^ 2, 0.5 * dtheta)
            else (sin_theta / dtheta, (1 - cos_theta) / dtheta) in
  let s := fst sc in
  let c := snd sc in
  let transform :=
    Transform2d.mk
      (Translation2d.mk (dx * s - dy * c) (dx * c + dy * s))
      (Rotation2d.of_xy cos_theta sin_theta) in
  add self transform.

(** [log]: the twist that maps [self] to [end].  Over the reals the
    subtraction [cos - 1] is exact; in double precision it cancels for
    relative rotations next to the 1e-9 window, so the round-trip
    properties below are stated away from that window. *)
Definition log (self end_ : t) : Twist2d.t :=
  let transform := sub end_ self in
  let dtheta := Rotation2d.value (Transform2d.rotation transform) in
  let half_dtheta := 0.5 * dtheta in
  let cos_minus_one := Rotation2d.cos (Transform2d.rotation transform) - 1 in
  let half_theta_by_tan_half_dtheta :=
    if Rlt_dec (Rabs cos_minus_one) 1e-9
    then 1 - 1 / 12 * dtheta ^ 2
    else - (half_dtheta * Rotation2d.sin (Transform2d.rotation transform))
         / cos_minus_one in
  let translation_part :=
    Translation2d.mul
      (Translation2d.rotateBy
         (Transform2d.translation transform)
         (Rotation2d.of_xy half_theta_by_tan_half_dtheta (- half_dtheta)))
      (hypot half_theta_by_tan_half_dtheta half_dtheta) in
  Twist2d.mk (Translation2d.x translation_part)
             (Translation2d.y translation_part)
             dtheta.

(** The dataclass [__eq__]: the fields compared as a tuple, each with its
    own [__eq__]. *)
Definition eq (self other : t) : bool :=
  Translation2d.eq (translation self) (translation other)
  && Rotation2d.eq (rotation self) (rotation other).

End Pose2d.

(** ** kinematics/chassisspeeds.py *)

Module ChassisSpeeds.

Record t : Type := mk {
  vx : R;
  vy : R;
  omega : R
}.

Definition default : t := mk 0 0 0.

Definition fromFieldRelativeSpeeds
    (vx vy omega : R) (robotAngle : Rotation2d.t) : t :=
  mk (vx * Rotation2d.cos robotAngle + vy * Rotation2d.sin robotAngle)
     (- vx * Rotation2d.sin robotAngle + vy * Rotation2d.cos robotAngle)
     omega.

End ChassisSpeeds.

(** ** numpy arrays: a matrix is the list of its rows *)

Definition Matrix : Type := list (list R).

Definition dot (u v : list R) : R :=
  fold_right Rplus 0 (map (fun p => fst p * snd p) (combine u v)).

(** [m @ v] for a 2-d [m] and a 1-d [v]: the row length must be [len(v)]. *)
Definition matvec (m : Matrix) (v : list R) : result (list R) :=
  if forallb (fun row => Nat.eqb (length row) (length v)) m
  then Ok (map (fun row => dot row v) m)
  else Raise ValueError.

(** [a[i] = v] on a list, [IndexError] out of range. *)
Fixpoint list_set {A : Type} (l : list A) (i : nat) (v : A) : result (list A) :=
  match l, i with
  | [], _ => Raise IndexError
  | _ :: tl, O => Ok (v :: tl)
  | hd :: tl, S i' => tl' <- list_set tl i' v ;; Ok (hd :: tl')
  end.

(** [m[i, j] = v] *)
Definition mat_set (m : Matrix) (i j : nat) (v : R) : result Matrix :=
  match nth_error m i with
  | None => Raise IndexError
  | Some row => row' <- list_set row j v ;; list_set m i row'
  end.

(** [v.reshape(-1, 2)], iterated as pairs. *)
Fixpoint reshape2 (v : list R) : result (list (R * R)) :=
  match v with
  | [] => Ok []
  | x :: y :: tl => ps <- reshape2 tl ;; Ok ((x, y) :: ps)
  | _ => Raise ValueError
  end.

(** Matrix product and transpose, to state what a pseudoinverse is. *)
Definition column (m : Matrix) (j : nat) : list R :=
  map (fun row => nth j row 0) m.

Definition matmul (a b : Matrix) (cols : nat) : Matrix :=
  map (fun row => map (fun j => dot row (column b j)) (seq 0 cols)) a.

Definition transpose (m : Matrix) (cols : nat) : Matrix :=
  map (fun j => column m j) (seq 0 cols).

(** The contract of [np.linalg.pinv]: [p] (3 x n) is the Moore-Penrose
    pseudoinverse of [a] (n x 3) when the four Penrose equations hold. *)
Definition MoorePenrose (a p : Matrix) : Prop :=
  let n := length a in
  matmul (matmul a p n) a 3 = a
  /\ matmul (matmul p a 3) p n = p
  /\ transpose (matmul a p n) n = matmul a p n
  /\ transpose (matmul p a 3) 3 = matmul p a 3.

(** ** kinematics/swerve.py *)

Module SwerveModuleState.

Record t : Type := mk {
  speed : R;
  angle : Rotation2d.t
}.

(** [SwerveModuleState()] *)
Definition default : t := mk 0 _zero_rotation.

End SwerveModuleState.

Module SwerveDriveKinematics.

Record t : Type := mk {
  modules : list Translation2d.t;
  num_modules : nat;
  _inverse_kinematics : Matrix;
  forward_kinematics : Matrix;
  _prev_cor : Translation2d.t
}.

(** [for i, module in enumerate(modules)]: the two stores into the third
    column, rows [2 * i] and [2 * i + 1]; [fy] and [fx] give the stored
    values. *)
Fixpoint set_column (inverse_kinematics : Matrix) (i : nat)
    (modules : list Translation2d.t) (fy fx : Translation2d.t -> R)
    : result Matrix :=
  match modules with
  | [] => Ok inverse_kinematics
  | module :: rest =>
      m1 <- mat_set inverse_kinematics (2 * i) 2 (fy module) ;;
      m2 <- mat_set m1 (2 * i + 1) 2 (fx module) ;;
      set_column m2 (S i) rest fy fx
  end.

(** [np.array([(1, 0, 0), (0, 1, 0)] * n, dtype=float)] *)
Definition base_rows (n : nat) : Matrix :=
  concat (repeat [[1; 0; 0]; [0; 1; 0]] n).

Section Init.

(** [np.linalg.pinv] *)
Variable pinv : Matrix -> Matrix.

(** [__init__(self, *wheels)] *)
Definition init (wheels : list Translation2d.t) : result t :=
  if Nat.leb 2 (length wheels) then
    inverse_kinematics <-
      set_column (base_rows (length wheels)) 0 wheels
        (fun module => - Translation2d.y module)
        (fun module => Translation2d.x module) ;;
    Ok (mk wheels (length wheels) inverse_kinematics
           (pinv inverse_kinematics) _identity_translation)
  else Raise AssertionError.

End Init.

(** [toSwerveModuleStates(self, chassisSpeeds, centerOfRotation)]: the
    module states and the object after the call.

    The guard is [prev_cor is not centerOfRotation and
    prev_cor != centerOfRotation]; an object is [==] to itself here (there
    is no NaN), so the identity test never changes the outcome and the
    guard is [prev_cor != centerOfRotation]. *)
Definition toSwerveModuleStates (self : t) (chassisSpeeds : ChassisSpeeds.t)
    (centerOfRotation : Translation2d.t)
    : result (list SwerveModuleState.t * t) :=
  let prev_cor := _prev_cor self in
  self' <-
    (if negb (Translation2d.eq prev_cor centerOfRotation) then
       let cor_y := Translation2d.y centerOfRotation in
       let cor_x := Translation2d.x centerOfRotation in
       inverse_kinematics <-
         set_column (_inverse_kinematics self) 0 (modules self)
           (fun module => - Translation2d.y module + cor_y)
           (fun module => Translation2d.x module - cor_x) ;;
       Ok (mk (modules self) (num_modules self) inverse_kinematics
              (forward_kinematics self) centerOfRotation)
     else Ok self) ;;
  let chassis_vel_vec :=
    [ChassisSpeeds.vx chassisSpeeds; ChassisSpeeds.vy chassisSpeeds;
     ChassisSpeeds.omega chassisSpeeds] in
  module_states <- matvec (_inverse_kinematics self') chassis_vel_vec ;;
  pairs <- reshape2 module_states ;;
  Ok (map (fun p => SwerveModuleState.mk
                      (hypot (fst p) (snd p))
                      (Rotation2d.of_xy (fst p) (snd p)))
          pairs,
      self').

(** [ChassisSpeeds] applied to the unpacked vector: missing fields take the default 0, more than
    three arguments are a [TypeError]. *)
Definition ChassisSpeeds_of_list (vec : list R) : result ChassisSpeeds.t :=
  match vec with
  | [] => Ok (ChassisSpeeds.mk 0 0 0)
  | [a] => Ok (ChassisSpeeds.mk a 0 0)
  | [a; b] => Ok (ChassisSpeeds.mk a b 0)
  | [a; b; c] => Ok (ChassisSpeeds.mk a b c)
  | _ => Raise TypeError
  end.

(** [toChassisSpeeds(self, *wheel_states)]; it assigns to no attribute. *)
Definition toChassisSpeeds (self : t) (wheel_states : list SwerveModuleState.t)
    : result ChassisSpeeds.t :=
  if Nat.eqb (length wheel_states) (num_modules self) then
    let module_states_mat :=
      flat_map
        (fun module =>
           [SwerveModuleState.speed module
              * Rotation2d.cos (SwerveModuleState.angle module);
            SwerveModuleState.speed module
              * Rotation2d.sin (SwerveModuleState.angle module)])
        wheel_states in
    chassis_vel_vec <- matvec (forward_kinematics self) module_states_mat ;;
    ChassisSpeeds_of_list chassis_vel_vec
  else Raise AssertionError.

(** The module states are mutable objects and the list holds references
    to them: a heap maps an address (an index) to the object, and the
    argument of [normalizeWheelSpeeds] is a list of addresses, in which
    one object may occur more than once. *)
Definition heap : Type := list SwerveModuleState.t.

Definition read (h : heap) (r : nat) : SwerveModuleState.t :=
  nth r h SwerveModuleState.default.

Fixpoint modify (h : heap) (r : nat)
    (f : SwerveModuleState.t -> SwerveModuleState.t) : heap :=
  match h, r with
  | [], _ => []
  | m :: tl, O => f m :: tl
  | m :: tl, S r' => m :: modify tl r' f
  end.

(** The builtin [max] of a generator: [ValueError] when it is empty. *)
Definition py_max (l : list R) : result R :=
  match l with
  | [] => Raise ValueError
  | v :: tl => Ok (fold_left (fun acc item =>
                                if Rlt_dec acc item then item else acc)
                             tl v)
  end.

(** [normalizeWheelSpeeds(moduleStates, attainableMaxSpeed)]: the heap
    after the call. *)
Definition normalizeWheelSpeeds (h : heap) (moduleStates : list nat)
    (attainableMaxSpeed : R) : result heap :=
  real_max_speed <-
    py_max (map (fun r => SwerveModuleState.speed (read h r)) moduleStates) ;;
  if Rlt_dec attainableMaxSpeed real_max_speed then
    if Req_dec_T real_max_speed 0 then Raise ZeroDivisionError
    else
      let factor := attainableMaxSpeed / real_max_speed in
      Ok (fold_left
            (fun h' r =>
               modify h' r
                 (fun module =>
                    SwerveModuleState.mk
                      (SwerveModuleState.speed module * factor)
                      (SwerveModuleState.angle module)))
            moduleStates h)
  else Ok h.

End SwerveDriveKinematics.

Module SwerveDriveOdometry.

Record t : Type := mk {
  kinematics : SwerveDriveKinematics.t;
  _pose : Pose2d.t;
  _previous_time : option R;
  _previous_angle : Rotation2d.t;
  _gyro_offset : Rotation2d.t
}.

(** [__init__(self, kinematics, gyroAngle, initialPose=None)] *)
Definition init (kinematics : SwerveDriveKinematics.t)
    (gyroAngle : Rotation2d.t) (initialPose : option Pose2d.t) : t :=
  let initialPose :=
    match initialPose with
    | None => Pose2d.default
    | Some p => p
    end in
  mk kinematics initialPose None (Pose2d.rotation initialPose)
     (Rotation2d.sub (Pose2d.rotation initialPose) gyroAngle).

Definition resetPosition (self : t) (pose : Pose2d.t)
    (gyroAngle : Rotation2d.t) : t :=
  mk (kinematics self) pose (_previous_time self) (Pose2d.rotation pose)
     (Rotation2d.sub (Pose2d.rotation pose) gyroAngle).

Definition getPose (self : t) : Pose2d.t := _pose self.

(** [delta_time = currentTime - prev_time if prev_time is not None else 0] *)
Definition delta_time (prev_time : option R) (currentTime : R) : R :=
  match prev_time with
  | Some p => currentTime - p
  | None => 0
  end.

(** [updateWithTime(self, currentTime, gyroAngle, *module_states)]: what
    the call returns or raises, and the object after it.  The timestamp
    is stored before forward kinematics can raise. *)
Definition updateWithTime (self : t) (currentTime : R)
    (gyroAngle : Rotation2d.t) (module_states : list SwerveModuleState.t)
    : result Pose2d.t * t :=
  let prev_time := _previous_time self in
  let delta_time := delta_time prev_time currentTime in
  let self1 := mk (kinematics self) (_pose self) (Some currentTime)
                  (_previous_angle self) (_gyro_offset self) in
  let angle := Rotation2d.add gyroAngle (_gyro_offset self1) in
  match SwerveDriveKinematics.toChassisSpeeds (kinematics self1)
          module_states with
  | Raise e => (Raise e, self1)
  | Ok speeds =>
      let dx := ChassisSpeeds.vx speeds in
      let dy := ChassisSpeeds.vy speeds in
      let new_pose :=
        Pose2d.exp (_pose self1)
          (Twist2d.mk (dx * delta_time) (dy * delta_time)
             (Rotation2d.getRadians
                (Rotation2d.sub angle (_previous_angle self1)))) in
      let pose' := Pose2d.mk (Pose2d.translation new_pose) angle in
      (Ok pose',
       mk (kinematics self1) pose' (_previous_time self1) angle
          (_gyro_offset self1))
  end.

End SwerveDriveOdometry.

(** ** Closed forms used to state the properties *)

(** The typed objects among Python's values. *)
Definition py_translation (t : Translation2d.t) : pyobj :=
  PyTranslation2d (PyFloat (Translation2d.x t)) (PyFloat (Translation2d.y t)).

Definition py_pose (p : Pose2d.t) : pyobj :=
  PyPose2d (py_translation (Pose2d.translation p))
           (PyRotation2d (Pose2d.rotation p)).

(** The cosine and sine fields are those of the stored angle. *)
Definition consistent (r : Rotation2d.t) : Prop :=
  Rotation2d.cos r = cos (Rotation2d.value r)
  /\ Rotation2d.sin r = sin (Rotation2d.value r).

(** The inverse-kinematics matrix for a center of rotation: each module
    contributes the rows [1, 0, -y + cor_y] and [0, 1, x - cor_x]. *)
Definition rows_of (fy fx : Translation2d.t -> R)
    (modules : list Translation2d.t) : Matrix :=
  flat_map (fun module => [[1; 0; fy module]; [0; 1; fx module]]) modules.

Definition ik_matrix (modules : list Translation2d.t)
    (centerOfRotation : Translation2d.t) : Matrix :=
  rows_of (fun module => - Translation2d.y module
                         + Translation2d.y centerOfRotation)
          (fun module => Translation2d.x module
                         - Translation2d.x centerOfRotation)
          modules.

(** The center of rotation in force after a call: the cached one when the
    requested one compares equal to it, the requested one otherwise. *)
Definition active_cor (self : SwerveDriveKinematics.t)
    (centerOfRotation : Translation2d.t) : Translation2d.t :=
  if Translation2d.eq (SwerveDriveKinematics._prev_cor self) centerOfRotation
  then SwerveDriveKinematics._prev_cor self
  else centerOfRotation.

(** The velocity of one module for a chassis speed and a center of
    rotation, and the state [toSwerveModuleStates] returns for it. *)
Definition module_velocity (chassisSpeeds : ChassisSpeeds.t)
    (centerOfRotation module : Translation2d.t) : R * R :=
  (ChassisSpeeds.vx chassisSpeeds
   + (- Translation2d.y module + Translation2d.y centerOfRotation)
     * ChassisSpeeds.omega chassisSpeeds,
   ChassisSpeeds.vy chassisSpeeds
   + (Translation2d.x module - Translation2d.x centerOfRotation)
     * ChassisSpeeds.omega chassisSpeeds).

Definition module_state (chassisSpeeds : ChassisSpeeds.t)
    (centerOfRotation module : Translation2d.t) : SwerveModuleState.t :=
  let v := module_velocity chassisSpeeds centerOfRotation module in
  SwerveModuleState.mk (hypot (fst v) (snd v))
                       (Rotation2d.of_xy (fst v) (snd v)).

(** A velocity whose direction survives [Rotation2d(x, y)]: it is longer
    than 1e-6, or it points along +x (the zero velocity included), which is
    the direction stored below the threshold. *)
Definition direction_kept (v : R * R) : Prop :=
  1e-6 < hypot (fst v) (snd v) \/ (snd v = 0 /\ 0 <= fst v).

(** [shape m r c]: [m] has [r] rows of [c] entries. *)
Definition shape (m : Matrix) (r c : nat) : Prop :=
  length m = r /\ Forall (fun row => length row = c) m.

(** The objects a program can hold: the one the constructor returns, and
    the ones left by calls of [toSwerveModuleStates] (the only method that
    assigns to an attribute). *)
Inductive reachable (pinv : Matrix -> Matrix) (wheels : list Translation2d.t)
    : SwerveDriveKinematics.t -> Prop :=
| reach_init k :
    SwerveDriveKinematics.init pinv wheels = Ok k ->
    reachable pinv wheels k
| reach_step k chassisSpeeds centerOfRotation states k' :
    reachable pinv wheels k ->
    SwerveDriveKinematics.toSwerveModuleStates k chassisSpeeds centerOfRotation
      = Ok (states, k') ->
    reachable pinv wheels k'.

(** What holds of every reachable object. *)
Definition kin_inv (pinv : Matrix -> Matrix) (wheels : list Translation2d.t)
    (k : SwerveDriveKinematics.t) : Prop :=
  SwerveDriveKinematics.modules k = wheels
  /\ SwerveDriveKinematics.num_modules k = length wheels
  /\ (2 <= length wheels)%nat
  /\ SwerveDriveKinematics._inverse_kinematics k
     = ik_matrix wheels (SwerveDriveKinematics._prev_cor k)
  /\ SwerveDriveKinematics.forward_kinematics k
     = pinv (ik_matrix wheels _identity_translation).

(** [m @ v] without the shape test. *)
Definition mv (m : Matrix) (v : list R) : list R :=
  map (fun row => dot row v) m.

(** The vector of Cartesian module velocities that [toChassisSpeeds]
    builds from the module states. *)
Definition cartesian (wheel_states : list SwerveModuleState.t) : list R :=
  flat_map
    (fun module =>
       [SwerveModuleState.speed module
          * Rotation2d.cos (SwerveModuleState.angle module);
        SwerveModuleState.speed module
          * Rotation2d.sin (SwerveModuleState.angle module)])
    wheel_states.

(** The speed of the object at an address. *)
Definition speed_at (h : SwerveDriveKinematics.heap) (r : nat) : R :=
  SwerveModuleState.speed (SwerveDriveKinematics.read h r).

(** The largest [|speed|] among the listed modules. *)
Definition max_abs_speed (h : SwerveDriveKinematics.heap)
    (moduleStates : list nat) : R :=
  fold_right (fun r acc => Rmax (Rabs (speed_at h r)) acc) 0 moduleStates.

Definition scale (factor : R) (module : SwerveModuleState.t)
    : SwerveModuleState.t :=
  SwerveModuleState.mk (SwerveModuleState.speed module * factor)
                       (SwerveModuleState.angle module).

(** The list of the normalisation test: speeds 5, 6, 4 and 7. *)
Definition test_heap : SwerveDriveKinematics.heap :=
  [SwerveModuleState.mk 5 _zero_rotation; SwerveModuleState.mk 6 _zero_rotation;
   SwerveModuleState.mk 4 _zero_rotation; SwerveModuleState.mk 7 _zero_rotation].

(** For a matrix [a] of three independent columns the Moore-Penrose
    pseudoinverse is [(a^T a)^-1 a^T]; [pinv_normal] computes it, with the
    3 x 3 inverse by cofactors.  It is the instance of [np.linalg.pinv] in
    the concrete examples below. *)
Definition gram (a : Matrix) (i j : nat) : R := dot (column a i) (column a j).

Definition inv3 (g : nat -> nat -> R) : Matrix :=
  let a := g 0%nat 0%nat in let b := g 0%nat 1%nat in let c := g 0%nat 2%nat in
  let d := g 1%nat 0%nat in let e := g 1%nat 1%nat in let f := g 1%nat 2%nat in
  let g' := g 2%nat 0%nat in let h := g 2%nat 1%nat in let i := g 2%nat 2%nat in
  let det := a * (e * i - f * h) - b * (d * i - f * g') + c * (d * h - e * g') in
  [[(e * i - f * h) / det; (c * h - b * i) / det; (b * f - c * e) / det];
   [(f * g' - d * i) / det; (a * i - c * g') / det; (c * d - a * f) / det];
   [(d * h - e * g') / det; (b * g' - a * h) / det; (a * e - b * d) / det]].

Definition pinv_normal (a : Matrix) : Matrix :=
  map (fun grow => map (fun arow => dot grow arow) a) (inv3 (gram a)).

(** The robot of the tests: four modules at (+-12, +-12). *)
Definition FL : Translation2d.t := Translation2d.mk 12 12.
Definition FR : Translation2d.t := Translation2d.mk 12 (-12).
Definition BL : Translation2d.t := Translation2d.mk (-12) 12.
Definition BR : Translation2d.t := Translation2d.mk (-12) (-12).
Definition test_wheels : list Translation2d.t := [FL; FR; BL; BR].

(** Its pseudoinverse at the robot center, written out. *)
Definition test_forward : Matrix :=
  [[1/4; 0; 1/4; 0; 1/4; 0; 1/4; 0];
   [0; 1/4; 0; 1/4; 0; 1/4; 0; 1/4];
   [-1/96; 1/96; 1/96; 1/96; -1/96; -1/96; 1/96; -1/96]].

(** The object [SwerveDriveKinematics(FL, FR, BL, BR)] of the tests. *)
Definition test_kinematics : SwerveDriveKinematics.t :=
  SwerveDriveKinematics.mk test_wheels 4
    (ik_matrix test_wheels _identity_translation)
    test_forward _identity_translation.

(** * Properties *)

(** ** hypot and atan2 *)

Lemma hypot_nonneg (x y : R) : 0 <= hypot x y.
Proof. unfold hypot. apply sqrt_pos. Qed.

Lemma hypot_sqr (x y : R) : hypot x y * hypot x y = x * x + y * y.
Proof. unfold hypot. apply sqrt_def. nra. Qed.

Lemma hypot_unit (x y : R) : x * x + y * y = 1 -> hypot x y = 1.
Proof. intros H. unfold hypot. rewrite H. apply sqrt_1. Qed.

Lemma hypot_opp_r (x y : R) : hypot x (- y) = hypot x y.
Proof. unfold hypot. f_equal. ring. Qed.

Lemma hypot_0_r (x : R) : 0 <= x -> hypot x 0 = x.
Proof.
  intros Hx. unfold hypot.
  replace (x * x + 0 * 0) with (x * x) by ring.
  now apply sqrt_square.
Qed.

Lemma hypot_0_l (y : R) : 0 <= y -> hypot 0 y = y.
Proof.
  intros Hy. unfold hypot.
  replace (0 * 0 + y * y) with (y * y) by ring.
  now apply sqrt_square.
Qed.

Lemma atan_nonpos (t : R) : t <= 0 -> atan t <= 0.
Proof.
  intros [Ht | ->].
  - left. rewrite <- atan_0. now apply atan_increasing.
  - rewrite atan_0. lra.
Qed.

Lemma atan_pos (t : R) : 0 < t -> 0 < atan t.
Proof. intros Ht. rewrite <- atan_0. now apply atan_increasing. Qed.

(** [atan2] returns an angle in (-pi, pi]. *)
Lemma atan2_range (y x : R) : - PI < atan2 y x <= PI.
Proof.
  pose proof PI_RGT_0 as Hpi.
  unfold atan2.
  destruct (Rlt_dec 0 x) as [Hx | Hx].
  - pose proof (atan_bound (y / x)). lra.
  - destruct (Rlt_dec x 0) as [Hx' | Hx'].
    + destruct (Rle_dec 0 y) as [Hy | Hy].
      * assert (y / x <= 0).
        { unfold Rdiv. assert (/ x < 0) by now apply Rinv_lt_0_compat. nra. }
        pose proof (atan_nonpos _ H). pose proof (atan_bound (y / x)). lra.
      * assert (0 < y / x).
        { unfold Rdiv. assert (/ x < 0) by now apply Rinv_lt_0_compat. nra. }
        pose proof (atan_pos _ H). pose proof (atan_bound (y / x)). lra.
    + destruct (Rlt_dec 0 y); [lra |].
      destruct (Rlt_dec y 0); lra.
Qed.

Lemma Rabs_sqr_eq (x : R) : Rabs x * Rabs x = x * x.
Proof. unfold Rabs. destruct (Rcase_abs x); ring. Qed.

Lemma sqrt_one_plus_sqr_div (y x : R) :
  x <> 0 -> x * x + y * y = 1 -> sqrt (1 + (y / x)²) = / Rabs x.
Proof.
  intros Hx Hxy.
  assert (Habs : 0 < Rabs x) by now apply Rabs_pos_lt.
  apply sqrt_lem_1.
  - unfold Rsqr. nra.
  - left. now apply Rinv_0_lt_compat.
  - rewrite <- Rinv_mult, Rabs_sqr_eq. unfold Rsqr.
    transitivity ((x * x + y * y) / (x * x)).
    + rewrite Hxy. field. assumption.
    + field. assumption.
Qed.

(** On the unit circle [atan2] inverts [(cos, sin)]. *)
Lemma atan2_unit (y x : R) :
  x * x + y * y = 1 -> cos (atan2 y x) = x /\ sin (atan2 y x) = y.
Proof.
  intros Hxy. unfold atan2.
  destruct (Rlt_dec 0 x) as [Hx | Hx].
  - rewrite cos_atan, sin_atan, sqrt_one_plus_sqr_div by lra.
    rewrite Rabs_right by lra. split; field; lra.
  - destruct (Rlt_dec x 0) as [Hx' | Hx'].
    + assert (Hs : sqrt (1 + (y / x)²) = / Rabs x)
        by (apply sqrt_one_plus_sqr_div; lra).
      rewrite Rabs_left in Hs by assumption.
      destruct (Rle_dec 0 y) as [Hy | Hy].
      * rewrite neg_cos, neg_sin, cos_atan, sin_atan, Hs.
        split; field; lra.
      * unfold Rminus.
        rewrite cos_plus, sin_plus, cos_neg, sin_neg, cos_PI, sin_PI.
        rewrite cos_atan, sin_atan, Hs. split; field; lra.
    + assert (x = 0) by lra. subst x.
      destruct (Rlt_dec 0 y) as [Hy | Hy].
      * rewrite cos_PI2, sin_PI2. split; nra.
      * destruct (Rlt_dec y 0) as [Hy' | Hy'].
        -- rewrite cos_neg, sin_neg, cos_PI2, sin_PI2. split; nra.
        -- nra.
Qed.

(** Two angles of (-pi, pi] with the same cosine and sine are equal. *)
Lemma angle_unique (a b : R) :
  - PI < a <= PI -> - PI < b <= PI ->
  cos a = cos b -> sin a = sin b -> a = b.
Proof.
  intros Ha Hb Hc Hs.
  pose proof PI_RGT_0 as Hpi.
  assert (Hsin : sin (a - b) = 0).
  { rewrite sin_minus, Hc, Hs. ring. }
  assert (Hcos : cos (a - b) = 1).
  { rewrite cos_minus, Hc, Hs. pose proof (sin2_cos2 b) as H.
    unfold Rsqr in H. lra. }
  destruct (sin_eq_0_0 _ Hsin) as [k Hk].
  assert (Hk1 : (-2 < k < 2)%Z).
  { split; apply lt_IZR.
    - apply Rmult_lt_reg_r with PI; [assumption |]. rewrite <- Hk. simpl. lra.
    - apply Rmult_lt_reg_r with PI; [assumption |]. rewrite <- Hk. simpl. lra. }
  assert (Hcases : (k = -1 \/ k = 0 \/ k = 1)%Z) by lia.
  destruct Hcases as [-> | [-> | ->]].
  - exfalso. rewrite Hk in Hcos.
    replace (-1 * PI) with (- PI) in Hcos by ring.
    rewrite cos_neg, cos_PI in Hcos. lra.
  - lra.
  - exfalso. rewrite Hk in Hcos.
    replace (1 * PI) with PI in Hcos by ring.
    rewrite cos_PI in Hcos. lra.
Qed.

(** [atan2] recovers an angle of (-pi, pi] from its sine and cosine. *)
Lemma atan2_sin_cos (v : R) :
  - PI < v <= PI -> atan2 (sin v) (cos v) = v.
Proof.
  intros Hv.
  assert (H1 : cos v * cos v + sin v * sin v = 1).
  { pose proof (sin2_cos2 v) as H. unfold Rsqr in H. lra. }
  destruct (atan2_unit _ _ H1) as [Hc Hs].
  apply angle_unique; auto using atan2_range.
Qed.

(** ** Rotation2d: the stored triple *)

Lemma of_xy_large (x y : R) :
  1e-6 < hypot x y ->
  Rotation2d.of_xy x y =
    Rotation2d.mk (atan2 (y / hypot x y) (x / hypot x y))
                  (x / hypot x y) (y / hypot x y).
Proof.
  intros H. unfold Rotation2d.of_xy.
  destruct (Rlt_dec 1e-6 (hypot x y)); [reflexivity | contradiction].
Qed.

Lemma atan2_0_1 : atan2 0 1 = 0.
Proof.
  unfold atan2. destruct (Rlt_dec 0 1); [| lra].
  unfold Rdiv. rewrite Rmult_0_l. apply atan_0.
Qed.

Lemma of_xy_small (x y : R) :
  hypot x y <= 1e-6 -> Rotation2d.of_xy x y = Rotation2d.mk 0 1 0.
Proof.
  intros H. unfold Rotation2d.of_xy.
  destruct (Rlt_dec 1e-6 (hypot x y)); [lra |].
  simpl. now rewrite atan2_0_1.
Qed.

(** Components on the unit circle are stored as they are. *)
Lemma of_xy_on_circle (x y : R) :
  x * x + y * y = 1 ->
  Rotation2d.of_xy x y = Rotation2d.mk (atan2 y x) x y.
Proof.
  intros H. rewrite of_xy_large; rewrite (hypot_unit _ _ H); [| lra].
  now rewrite !Rdiv_1_r.
Qed.

Lemma of_xy_unit (x y : R) :
  Rotation2d.cos (Rotation2d.of_xy x y) * Rotation2d.cos (Rotation2d.of_xy x y)
  + Rotation2d.sin (Rotation2d.of_xy x y) * Rotation2d.sin (Rotation2d.of_xy x y)
  = 1.
Proof.
  destruct (Rlt_dec 1e-6 (hypot x y)) as [H | H].
  - rewrite of_xy_large by assumption. simpl.
    pose proof (hypot_sqr x y) as Hs.
    transitivity ((x * x + y * y) / (hypot x y * hypot x y)).
    + field. lra.
    + rewrite Hs. field. nra.
  - rewrite of_xy_small by lra. simpl. ring.
Qed.

Lemma of_xy_consistent (x y : R) : consistent (Rotation2d.of_xy x y).
Proof.
  pose proof (of_xy_unit x y) as Hu.
  destruct (atan2_unit _ _ Hu) as [Hc Hs].
  unfold consistent. split; symmetry; assumption.
Qed.

Lemma of_value_consistent (v : R) : consistent (Rotation2d.of_value v).
Proof. split; reflexivity. Qed.

Lemma default_consistent : consistent Rotation2d.default.
Proof. split; simpl; [now rewrite cos_0 | now rewrite sin_0]. Qed.

Lemma constructed_consistent (r : Rotation2d.t) :
  Rotation2d.constructed r -> consistent r.
Proof.
  intros H. destruct H.
  - apply default_consistent.
  - apply of_value_consistent.
  - apply of_xy_consistent.
  - apply of_xy_consistent.
  - apply of_value_consistent.
  - apply of_xy_consistent.
  - apply of_value_consistent.
Qed.

Lemma consistent_unit (r : Rotation2d.t) :
  consistent r ->
  Rotation2d.cos r * Rotation2d.cos r + Rotation2d.sin r * Rotation2d.sin r = 1.
Proof.
  intros [-> ->]. pose proof (sin2_cos2 (Rotation2d.value r)) as H.
  unfold Rsqr in H. lra.
Qed.

(** C5 as stated fails: [Rotation2d(5)] keeps the raw angle 5, which is not
    an angle that [atan2] returns. *)
Lemma rotation_value_not_normalised :
  Rotation2d.constructed (Rotation2d.of_value 5)
  /\ Rotation2d.value (Rotation2d.of_value 5)
     <> atan2 (Rotation2d.sin (Rotation2d.of_value 5))
              (Rotation2d.cos (Rotation2d.of_value 5)).
Proof.
  split; [constructor |].
  simpl. pose proof (atan2_range (sin 5) (cos 5)). pose proof PI_4. lra.
Qed.

(** C5, amended: every Rotation2d stores the cosine and sine of its angle;
    the angle is the [atan2] of the stored sine and cosine when it lies in
    (-pi, pi], and always when the rotation comes from components
    (composition and subtraction included), which are normalised by their
    magnitude unless it is at most 1e-6, where the identity is stored. *)
Theorem rotation_triple_consistent (r : Rotation2d.t) :
  Rotation2d.constructed r ->
  (Rotation2d.cos r = cos (Rotation2d.value r)
   /\ Rotation2d.sin r = sin (Rotation2d.value r)
   /\ (- PI < Rotation2d.value r <= PI ->
       Rotation2d.value r = atan2 (Rotation2d.sin r) (Rotation2d.cos r)))
  /\ (forall x y,
        let xy := Rotation2d.of_xy x y in
        Rotation2d.value xy = atan2 (Rotation2d.sin xy) (Rotation2d.cos xy)
        /\ (1e-6 < hypot x y ->
            Rotation2d.cos xy = x / hypot x y
            /\ Rotation2d.sin xy = y / hypot x y)
        /\ (hypot x y <= 1e-6 -> xy = Rotation2d.mk 0 1 0))
  /\ (forall a b,
        Rotation2d.value (Rotation2d.add a b)
        = atan2 (Rotation2d.sin (Rotation2d.add a b))
                (Rotation2d.cos (Rotation2d.add a b))
        /\ Rotation2d.value (Rotation2d.sub a b)
           = atan2 (Rotation2d.sin (Rotation2d.sub a b))
                   (Rotation2d.cos (Rotation2d.sub a b))).
Proof.
  intros Hr. destruct (constructed_consistent r Hr) as [Hc Hs].
  repeat split; try reflexivity; try assumption.
  - intros Hv. rewrite Hc, Hs. symmetry. now apply atan2_sin_cos.
  - rewrite of_xy_large by assumption. reflexivity.
  - rewrite of_xy_large by assumption. reflexivity.
  - apply of_xy_small.
Qed.

Lemma rotation_triple_consistent_witness :
  let r := Rotation2d.neg (Rotation2d.add (Rotation2d.of_value 1)
                                          (Rotation2d.of_xy 3 4)) in
  Rotation2d.cos r = cos (Rotation2d.value r)
  /\ Rotation2d.sin r = sin (Rotation2d.value r).
Proof.
  intros r.
  destruct (rotation_triple_consistent r) as [[Hc [Hs _]] _].
  - unfold r. repeat constructor.
  - split; assumption.
Defined.

(** ** ChassisSpeeds *)

(** C9: [fromFieldRelativeSpeeds] is [Translation2d.rotateBy] applied to
    [(vx, vy)] with the negated robot angle, and [omega] is returned as
    given. *)
Theorem fromFieldRelativeSpeeds_rotates
    (vx vy omega : R) (robotAngle : Rotation2d.t) :
  Rotation2d.constructed robotAngle ->
  let rotated :=
    Translation2d.rotateBy (Translation2d.mk vx vy)
                           (Rotation2d.neg robotAngle) in
  ChassisSpeeds.fromFieldRelativeSpeeds vx vy omega robotAngle
  = ChassisSpeeds.mk (Translation2d.x rotated) (Translation2d.y rotated) omega.
Proof.
  intros Hr. destruct (constructed_consistent _ Hr) as [Hc Hs].
  unfold ChassisSpeeds.fromFieldRelativeSpeeds, Translation2d.rotateBy,
    Rotation2d.neg, Rotation2d.of_value.
  simpl. rewrite cos_neg, sin_neg, <- Hc, <- Hs.
  f_equal; ring.
Qed.

Lemma fromFieldRelativeSpeeds_rotates_witness :
  ChassisSpeeds.fromFieldRelativeSpeeds 1 0 0.5 (Rotation2d.fromDegrees (-90))
  = ChassisSpeeds.mk
      (Translation2d.x
         (Translation2d.rotateBy
            (Translation2d.mk 1 0)
            (Rotation2d.neg (Rotation2d.fromDegrees (-90)))))
      (Translation2d.y
         (Translation2d.rotateBy
            (Translation2d.mk 1 0)
            (Rotation2d.neg (Rotation2d.fromDegrees (-90)))))
      0.5.
Proof.
  apply (fromFieldRelativeSpeeds_rotates 1 0 0.5 (Rotation2d.fromDegrees (-90))).
  unfold Rotation2d.fromDegrees. constructor.
Defined.

(** ** Pose2d: the exponential and the logarithm *)

Lemma sub_on_circle (a b : Rotation2d.t) :
  consistent a -> consistent b ->
  let X := Rotation2d.cos a * Rotation2d.cos b + Rotation2d.sin a * Rotation2d.sin b in
  let Y := Rotation2d.sin a * Rotation2d.cos b - Rotation2d.cos a * Rotation2d.sin b in
  X * X + Y * Y = 1 /\ Rotation2d.sub a b = Rotation2d.mk (atan2 Y X) X Y.
Proof.
  intros Ha Hb X Y.
  pose proof (consistent_unit a Ha) as Ua.
  pose proof (consistent_unit b Hb) as Ub.
  assert (HXY : X * X + Y * Y = 1) by (unfold X, Y; nra).
  split; [assumption |].
  destruct Hb as [Hcb Hsb].
  unfold Rotation2d.sub, Rotation2d.add, Rotation2d.neg, Rotation2d.of_value.
  simpl. rewrite cos_neg, sin_neg, <- Hcb, <- Hsb.
  rewrite <- (of_xy_on_circle X Y HXY).
  unfold X, Y. f_equal; ring.
Qed.

Lemma add_on_circle (a b : Rotation2d.t) :
  consistent a -> consistent b ->
  let X := Rotation2d.cos a * Rotation2d.cos b - Rotation2d.sin a * Rotation2d.sin b in
  let Y := Rotation2d.cos a * Rotation2d.sin b + Rotation2d.sin a * Rotation2d.cos b in
  X * X + Y * Y = 1 /\ Rotation2d.add a b = Rotation2d.mk (atan2 Y X) X Y.
Proof.
  intros Ha Hb X Y.
  pose proof (consistent_unit a Ha) as Ua.
  pose proof (consistent_unit b Hb) as Ub.
  assert (HXY : X * X + Y * Y = 1) by (unfold X, Y; nra).
  split; [assumption |].
  unfold Rotation2d.add. now rewrite <- (of_xy_on_circle X Y HXY).
Qed.



(** The twist returned by [log], once the small-magnitude branch of
    Rotation2d is excluded. *)
Lemma log_twist (p q : Pose2d.t) :
  let t := Pose2d.sub q p in
  let T := Transform2d.translation t in
  let dtheta := Rotation2d.value (Transform2d.rotation t) in
  let half := 0.5 * dtheta in
  let cm1 := Rotation2d.cos (Transform2d.rotation t) - 1 in
  let k := if Rlt_dec (Rabs cm1) 1e-9
           then 1 - 1 / 12 * dtheta ^ 2
           else - (half * Rotation2d.sin (Transform2d.rotation t)) / cm1 in
  1e-6 < hypot k half ->
  Pose2d.log p q =
    Twist2d.mk (Translation2d.x T * k + Translation2d.y T * half)
               (- Translation2d.x T * half + Translation2d.y T * k)
               dtheta.
Proof.
  intros t T dtheta half cm1 k Hm.
  unfold Pose2d.log. fold t. fold dtheta. fold half. fold cm1. fold k. fold T.
  assert (Hm' : 1e-6 < hypot k (- half)) by now rewrite hypot_opp_r.
  rewrite (of_xy_large _ _ Hm'). rewrite hypot_opp_r.
  unfold Translation2d.mul, Translation2d.rotateBy. simpl.
  f_equal; field; lra.
Qed.


(** ** The small-angle window of [log] *)











Lemma sqrt_scale (D : R) : 0 <= D -> sqrt (1e-24 * D) = 1e-12 * sqrt D.
Proof.
  intros HD. rewrite sqrt_mult by lra. f_equal.
  replace 1e-24 with (1e-12 * 1e-12) by lra.
  apply sqrt_square. lra.
Qed.



(** ** numpy stores *)

Lemma list_set_app {A : Type} (pre : list A) (old v : A) (tl : list A) :
  list_set (pre ++ old :: tl) (length pre) v = Ok (pre ++ v :: tl).
Proof.
  induction pre as [| hd pre IH]; simpl.
  - reflexivity.
  - now rewrite IH.
Qed.

Lemma mat_set_app (pre : Matrix) (a b c v : R) (tl : Matrix) :
  mat_set (pre ++ [a; b; c] :: tl) (length pre) 2 v
  = Ok (pre ++ [a; b; v] :: tl).
Proof.
  unfold mat_set.
  rewrite nth_error_app2, Nat.sub_diag by lia. simpl.
  apply list_set_app.
Qed.

(** The loop over the modules overwrites the third column, whatever it
    held, and never leaves the matrix. *)
Lemma set_column_rows (fy fx fy0 fx0 : Translation2d.t -> R)
    (modules : list Translation2d.t) :
  forall (pre : Matrix) (i : nat),
    length pre = (2 * i)%nat ->
    SwerveDriveKinematics.set_column
      (pre ++ rows_of fy0 fx0 modules) i modules fy fx
    = Ok (pre ++ rows_of fy fx modules).
Proof.
  induction modules as [| module rest IH]; intros pre i Hlen.
  - reflexivity.
  - cbn [SwerveDriveKinematics.set_column rows_of flat_map app].
    rewrite <- Hlen, mat_set_app. cbn [bind].
    replace (length pre + 1)%nat with (length (pre ++ [[1; 0; fy module]]))
      by (rewrite length_app; reflexivity).
    change (pre ++ [1; 0; fy module] :: [0; 1; fx0 module] :: flat_map
              (fun module0 => [[1; 0; fy0 module0]; [0; 1; fx0 module0]]) rest)
      with (pre ++ [[1; 0; fy module]] ++ [0; 1; fx0 module] :: rows_of fy0 fx0 rest).
    rewrite app_assoc, mat_set_app. cbn [bind].
    replace ((pre ++ [[1; 0; fy module]]) ++ [0; 1; fx module] :: rows_of fy0 fx0 rest)
      with ((pre ++ [[1; 0; fy module]; [0; 1; fx module]]) ++ rows_of fy0 fx0 rest)
      by (rewrite <- !app_assoc; reflexivity).
    rewrite IH.
    + rewrite <- app_assoc. reflexivity.
    + rewrite length_app. simpl. lia.
Qed.

Lemma base_rows_rows_of (wheels : list Translation2d.t) :
  SwerveDriveKinematics.base_rows (length wheels)
  = rows_of (fun _ => 0) (fun _ => 0) wheels.
Proof.
  unfold SwerveDriveKinematics.base_rows, rows_of.
  induction wheels as [| w tl IH]; simpl; [reflexivity | now rewrite IH].
Qed.

Lemma rows_of_ext (fy fx fy' fx' : Translation2d.t -> R) modules :
  (forall m, fy m = fy' m) -> (forall m, fx m = fx' m) ->
  rows_of fy fx modules = rows_of fy' fx' modules.
Proof.
  intros Hy Hx. unfold rows_of. apply flat_map_ext. intros m.
  now rewrite Hy, Hx.
Qed.

(** The constructor succeeds on two wheels or more and builds the matrix of
    the robot center. *)
Lemma init_ok (pinv : Matrix -> Matrix) (wheels : list Translation2d.t) :
  (2 <= length wheels)%nat ->
  SwerveDriveKinematics.init pinv wheels
  = Ok (SwerveDriveKinematics.mk wheels (length wheels)
          (ik_matrix wheels _identity_translation)
          (pinv (ik_matrix wheels _identity_translation))
          _identity_translation).
Proof.
  intros Hlen. unfold SwerveDriveKinematics.init.
  apply Nat.leb_le in Hlen. rewrite Hlen.
  rewrite base_rows_rows_of.
  pose proof (set_column_rows (fun module => - Translation2d.y module)
                (fun module => Translation2d.x module)
                (fun _ => 0) (fun _ => 0) wheels [] 0 eq_refl) as Hset.
  cbn [app] in Hset. rewrite Hset. cbn [bind].
  assert (E : rows_of (fun module => - Translation2d.y module)
                      (fun module => Translation2d.x module) wheels
              = ik_matrix wheels _identity_translation).
  { apply rows_of_ext; intros m; simpl; ring. }
  now rewrite E.
Qed.

Lemma init_raises (pinv : Matrix -> Matrix) (wheels : list Translation2d.t) :
  (length wheels < 2)%nat ->
  SwerveDriveKinematics.init pinv wheels = Raise AssertionError.
Proof.
  intros Hlen. unfold SwerveDriveKinematics.init.
  apply Nat.leb_gt in Hlen. now rewrite Hlen.
Qed.

(** ** Inverse kinematics in closed form *)

(** A translation compares equal to itself, which is why the identity test
    of the cache guard can be left out of the model. *)
Lemma isclose_refl (a : R) : isclose a a = true.
Proof.
  unfold isclose. destruct (Rle_dec _ _) as [H | H]; [reflexivity |].
  exfalso. apply H. replace (a - a) with 0 by ring. rewrite Rabs_R0.
  apply Rmax_r.
Qed.

Lemma Translation2d_eq_refl (t : Translation2d.t) : Translation2d.eq t t = true.
Proof. unfold Translation2d.eq. now rewrite !isclose_refl. Qed.

Lemma matvec_rows_of (fy fx : Translation2d.t -> R) modules (a b c : R) :
  matvec (rows_of fy fx modules) [a; b; c]
  = Ok (flat_map (fun m => [1 * a + (0 * b + (fy m * c + 0));
                            0 * a + (1 * b + (fx m * c + 0))]) modules).
Proof.
  unfold matvec.
  assert (H : forallb (fun row => Nat.eqb (length row) (length [a; b; c]))
                      (rows_of fy fx modules) = true).
  { unfold rows_of. induction modules as [| m tl IH]; simpl; auto. }
  rewrite H. f_equal. unfold rows_of.
  induction modules as [| m tl IH]; simpl; [reflexivity |].
  now rewrite <- IH.
Qed.

Lemma reshape2_flat_map {A : Type} (f g : A -> R) (l : list A) :
  reshape2 (flat_map (fun m => [f m; g m]) l)
  = Ok (map (fun m => (f m, g m)) l).
Proof.
  induction l as [| m tl IH]; simpl; [reflexivity |].
  now rewrite IH.
Qed.

Lemma shape_rows_of fy fx modules :
  shape (rows_of fy fx modules) (2 * length modules) 3.
Proof.
  unfold shape, rows_of. split.
  - induction modules as [| m tl IH]; simpl; [reflexivity |].
    simpl in IH. rewrite IH. lia.
  - induction modules as [| m tl IH]; simpl; auto.
Qed.

Section Kinematics.

Variable pinv : Matrix -> Matrix.
Variable wheels : list Translation2d.t.

Lemma toSwerveModuleStates_ok k chassisSpeeds centerOfRotation :
  kin_inv pinv wheels k ->
  SwerveDriveKinematics.toSwerveModuleStates k chassisSpeeds centerOfRotation
  = Ok (map (module_state chassisSpeeds (active_cor k centerOfRotation)) wheels,
        SwerveDriveKinematics.mk wheels (length wheels)
          (ik_matrix wheels (active_cor k centerOfRotation))
          (SwerveDriveKinematics.forward_kinematics k)
          (active_cor k centerOfRotation)).
Proof.
  intros (Hm & Hn & Hlen & Hik & Hfk).
  unfold SwerveDriveKinematics.toSwerveModuleStates, active_cor.
  destruct (Translation2d.eq (SwerveDriveKinematics._prev_cor k)
                             centerOfRotation) eqn:Heq; cbn [negb].
  - cbn [bind]. rewrite Hik. unfold ik_matrix at 1.
    rewrite matvec_rows_of. cbn [bind].
    rewrite reshape2_flat_map. cbn [bind]. f_equal. f_equal.
    + rewrite map_map. apply map_ext. intros m.
      unfold module_state, module_velocity. cbn [fst snd].
      f_equal; [f_equal | f_equal]; ring.
    + destruct k as [ms n ik fk pc]. simpl in *. subst. reflexivity.
  - rewrite Hik, Hm.
    pose proof (set_column_rows
                  (fun module => - Translation2d.y module
                                 + Translation2d.y centerOfRotation)
                  (fun module => Translation2d.x module
                                 - Translation2d.x centerOfRotation)
                  (fun module => - Translation2d.y module
                                 + Translation2d.y (SwerveDriveKinematics._prev_cor k))
                  (fun module => Translation2d.x module
                                 - Translation2d.x (SwerveDriveKinematics._prev_cor k))
                  wheels [] 0 eq_refl) as Hset.
    cbn [app] in Hset. unfold ik_matrix at 1. rewrite Hset. cbn [bind].
    cbn [SwerveDriveKinematics._inverse_kinematics].
    rewrite matvec_rows_of. cbn [bind].
    rewrite reshape2_flat_map. cbn [bind]. f_equal. f_equal.
    + rewrite map_map. apply map_ext. intros m.
      unfold module_state, module_velocity. cbn [fst snd].
      f_equal; [f_equal | f_equal]; ring.
    + now rewrite Hn.
Qed.

Lemma init_inv k : SwerveDriveKinematics.init pinv wheels = Ok k -> kin_inv pinv wheels k.
Proof.
  intros H.
  destruct (le_lt_dec 2 (length wheels)) as [Hlen | Hlen].
  - rewrite (init_ok pinv wheels Hlen) in H. injection H as <-.
    unfold kin_inv. simpl. auto.
  - rewrite (init_raises pinv wheels Hlen) in H. discriminate.
Qed.

Lemma reachable_inv k : reachable pinv wheels k -> kin_inv pinv wheels k.
Proof.
  induction 1 as [k Hinit | k cs cor states k' Hr IH Hstep].
  - now apply init_inv.
  - rewrite (toSwerveModuleStates_ok k cs cor IH) in Hstep.
    injection Hstep as _ <-.
    destruct IH as (Hm & Hn & Hlen & Hik & Hfk).
    unfold kin_inv. simpl. auto.
Qed.

End Kinematics.

(** ** Linear algebra on lists of rows *)

Lemma dot_cons (a b : R) (u v : list R) :
  dot (a :: u) (b :: v) = a * b + dot u v.
Proof. reflexivity. Qed.

Lemma dot_nil_l (v : list R) : dot [] v = 0.
Proof. reflexivity. Qed.

Lemma dot_map_zero {A : Type} (l : list A) (v : list R) :
  dot (map (fun _ => 0) l) v = 0.
Proof.
  revert v. induction l as [| a l IH]; intros [| b v]; try reflexivity.
  cbn [map]. rewrite dot_cons, IH. ring.
Qed.

Lemma dot_map_plus {A : Type} (f g : A -> R) (l : list A) (v : list R) :
  dot (map (fun j => f j + g j) l) v
  = dot (map f l) v + dot (map g l) v.
Proof.
  revert v. induction l as [| a l IH]; intros [| b v];
    try (unfold dot; simpl; ring).
  cbn [map]. rewrite !dot_cons, IH. ring.
Qed.

Lemma dot_map_scal {A : Type} (r : R) (f : A -> R) (l : list A) (v : list R) :
  dot (map (fun j => r * f j) l) v = r * dot (map f l) v.
Proof.
  revert v. induction l as [| a l IH]; intros [| b v];
    try (unfold dot; simpl; ring).
  cbn [map]. rewrite !dot_cons, IH. ring.
Qed.

Lemma map_nth_seq (y : list R) (c : nat) :
  length y = c -> map (fun j => nth j y 0) (seq 0 c) = y.
Proof.
  intros <-. induction y as [| a y IH]; [reflexivity |].
  cbn [length seq map nth]. f_equal.
  rewrite <- seq_shift, map_map. exact IH.
Qed.

(** One row of a product applied to a vector. *)
Lemma dot_matmul_row (y : Matrix) (c : nat) (v : list R) :
  Forall (fun row => length row = c) y ->
  forall row, length row = length y ->
  dot (map (fun j => dot row (column y j)) (seq 0 c)) v = dot row (mv y v).
Proof.
  intros Hy. induction Hy as [| y0 y' Hy0 Hy' IH]; intros [| r row'] Hlen;
    try discriminate.
  - cbn [mv map]. rewrite dot_nil_l.
    rewrite (map_ext _ (fun _ => 0)) by (intros j; apply dot_nil_l).
    apply dot_map_zero.
  - cbn [mv map column]. rewrite dot_cons.
    rewrite (map_ext _ (fun j => r * nth j y0 0 + dot row' (column y' j)))
      by (intros j; apply dot_cons).
    rewrite dot_map_plus, dot_map_scal, (map_nth_seq y0 c Hy0).
    rewrite IH by (simpl in Hlen; lia). reflexivity.
Qed.

Lemma mv_matmul (x y : Matrix) (c : nat) (v : list R) :
  Forall (fun row => length row = c) y ->
  Forall (fun row => length row = length y) x ->
  mv (matmul x y c) v = mv x (mv y v).
Proof.
  intros Hy Hx. unfold mv at 1 2, matmul. rewrite map_map.
  apply map_ext_in. intros row Hin.
  apply dot_matmul_row; [assumption |].
  rewrite Forall_forall in Hx. now apply Hx.
Qed.

Lemma matmul_row_length (x y : Matrix) (c : nat) :
  Forall (fun row => length row = c) (matmul x y c).
Proof.
  unfold matmul. apply Forall_forall. intros row Hin.
  apply in_map_iff in Hin. destruct Hin as (r & <- & _).
  now rewrite length_map, length_seq.
Qed.

Lemma matvec_mv (m : Matrix) (v : list R) :
  Forall (fun row => length row = length v) m -> matvec m v = Ok (mv m v).
Proof.
  intros H. unfold matvec.
  replace (forallb _ m) with true; [reflexivity |].
  symmetry. apply forallb_forall. rewrite Forall_forall in H.
  intros row Hin. apply Nat.eqb_eq. now apply H.
Qed.

(** The first Penrose equation, on vectors. *)
Lemma penrose_vec (a p : Matrix) (s : list R) :
  shape a (length a) 3 -> shape p 3 (length a) -> MoorePenrose a p ->
  mv a (mv p (mv a s)) = mv a s.
Proof.
  intros [_ Ha] [Hp3 Hp] (H1 & _).
  rewrite <- H1 at 3.
  rewrite mv_matmul; [| assumption |].
  - rewrite mv_matmul; [reflexivity | assumption |].
    rewrite Hp3. exact Ha.
  - apply matmul_row_length.
Qed.

(** The inverse-kinematics matrix is injective as soon as two modules are
    at different places. *)
Lemma rows_of_injective (fy fx : Translation2d.t -> R) modules
    (u1 u2 u3 v1 v2 v3 : R) :
  (exists a b, In a modules /\ In b modules
               /\ (fy a <> fy b \/ fx a <> fx b)) ->
  mv (rows_of fy fx modules) [u1; u2; u3]
  = mv (rows_of fy fx modules) [v1; v2; v3] ->
  [u1; u2; u3] = [v1; v2; v3].
Proof.
  intros (a & b & Ha & Hb & Hab) Heq.
  assert (Hrows : forall m, In m modules ->
            u1 + fy m * u3 = v1 + fy m * v3
            /\ u2 + fx m * u3 = v2 + fx m * v3).
  { clear a b Ha Hb Hab. induction modules as [| m0 tl IH]; intros m Hin.
    - destruct Hin.
    - unfold rows_of, mv in Heq. cbn [flat_map app map] in Heq.
      injection Heq as E1 E2 Etl. destruct Hin as [<- | Hin].
      + unfold dot in E1, E2. simpl in E1, E2. split; lra.
      + apply IH; assumption. }
  destruct (Hrows a Ha) as [Ea1 Ea2]. destruct (Hrows b Hb) as [Eb1 Eb2].
  assert (E3 : u3 = v3).
  { destruct Hab as [Hy | Hx].
    - assert ((fy a - fy b) * (u3 - v3) = 0) by lra.
      destruct (Rmult_integral _ _ H); lra.
    - assert ((fx a - fx b) * (u3 - v3) = 0) by lra.
      destruct (Rmult_integral _ _ H); lra. }
  subst v3. f_equal; [lra | f_equal; lra].
Qed.

(** ** Forward kinematics *)

Lemma length_cartesian ws : length (cartesian ws) = (2 * length ws)%nat.
Proof.
  unfold cartesian. induction ws as [| w tl IH]; simpl; [reflexivity |].
  simpl in IH. rewrite IH. lia.
Qed.

Lemma toChassisSpeeds_raises k ws :
  length ws <> SwerveDriveKinematics.num_modules k ->
  SwerveDriveKinematics.toChassisSpeeds k ws = Raise AssertionError.
Proof.
  intros H. unfold SwerveDriveKinematics.toChassisSpeeds.
  apply Nat.eqb_neq in H. now rewrite H.
Qed.

Lemma toChassisSpeeds_ok pinv wheels k ws :
  (forall a n, shape a n 3 -> shape (pinv a) 3 n) ->
  kin_inv pinv wheels k ->
  length ws = SwerveDriveKinematics.num_modules k ->
  exists c,
    SwerveDriveKinematics.toChassisSpeeds k ws = Ok c
    /\ [ChassisSpeeds.vx c; ChassisSpeeds.vy c; ChassisSpeeds.omega c]
       = mv (pinv (ik_matrix wheels _identity_translation)) (cartesian ws).
Proof.
  intros Hshape (Hm & Hn & Hlen & Hik & Hfk) Hws.
  unfold SwerveDriveKinematics.toChassisSpeeds.
  apply Nat.eqb_eq in Hws as Hws'. rewrite Hws'. fold (cartesian ws).
  rewrite Hfk.
  assert (Hik0 : shape (ik_matrix wheels _identity_translation)
                        (2 * length wheels) 3) by apply shape_rows_of.
  destruct (Hshape _ _ Hik0) as [Hp3 Hp].
  rewrite matvec_mv.
  2:{ rewrite length_cartesian, Hws, Hn. exact Hp. }
  cbn [bind]. unfold mv.
  destruct (pinv (ik_matrix wheels _identity_translation))
    as [| r1 [| r2 [| r3 [| r4 tl]]]]; try discriminate.
  cbn [map SwerveDriveKinematics.ChassisSpeeds_of_list].
  eexists. split; reflexivity.
Qed.

Lemma isclose_zero (a : R) : isclose a 0 = true -> a = 0.
Proof.
  unfold isclose. destruct (Rle_dec _ _) as [H | H]; [| discriminate].
  intros _. revert H. unfold Rmax, Rabs.
  repeat (destruct (Rle_dec _ _) || destruct (Rcase_abs _)); lra.
Qed.

Lemma eq_identity_translation (t : Translation2d.t) :
  Translation2d.eq t _identity_translation = true ->
  t = _identity_translation.
Proof.
  unfold Translation2d.eq. intros H. apply andb_prop in H as [Hx Hy].
  apply isclose_zero in Hx, Hy. destruct t as [x y]. simpl in *.
  now subst.
Qed.

Lemma active_cor_identity pinv wheels k :
  kin_inv pinv wheels k -> active_cor k _identity_translation = _identity_translation.
Proof.
  intros _. unfold active_cor.
  destruct (Translation2d.eq _ _) eqn:E; [| reflexivity].
  now apply eq_identity_translation.
Qed.

(** A module state gives back the Cartesian velocity of the module when
    the direction of that velocity was kept. *)
Lemma cartesian_module_states cs cor modules :
  Forall (fun m => direction_kept (module_velocity cs cor m)) modules ->
  cartesian (map (module_state cs cor) modules)
  = mv (ik_matrix modules cor)
       [ChassisSpeeds.vx cs; ChassisSpeeds.vy cs; ChassisSpeeds.omega cs].
Proof.
  unfold cartesian, ik_matrix, rows_of, mv.
  induction modules as [| m tl IH]; intros H; [reflexivity |].
  cbn [map flat_map app] in *. inversion H as [| m' tl' Hm Htl]; subst.
  rewrite IH by assumption.
  unfold module_state.
  cbn [SwerveModuleState.speed SwerveModuleState.angle].
  assert (Hx : fst (module_velocity cs cor m)
               = dot [1; 0; - Translation2d.y m + Translation2d.y cor]
                     [ChassisSpeeds.vx cs; ChassisSpeeds.vy cs;
                      ChassisSpeeds.omega cs]).
  { unfold dot, module_velocity. cbn [combine map fold_right fst snd]. ring. }
  assert (Hy : snd (module_velocity cs cor m)
               = dot [0; 1; Translation2d.x m - Translation2d.x cor]
                     [ChassisSpeeds.vx cs; ChassisSpeeds.vy cs;
                      ChassisSpeeds.omega cs]).
  { unfold dot, module_velocity. cbn [combine map fold_right fst snd]. ring. }
  rewrite <- Hx, <- Hy.
  destruct (module_velocity cs cor m) as [x y]. cbn [fst snd] in *.
  destruct (Rlt_dec 1e-6 (hypot x y)) as [Hbig | Hsmall].
  - rewrite (of_xy_large _ _ Hbig). cbn [Rotation2d.cos Rotation2d.sin].
    f_equal; [| f_equal]; field; lra.
  - destruct Hm as [Hbig | [Hy0 Hx0]]; [contradiction |].
    rewrite of_xy_small by lra. cbn [Rotation2d.cos Rotation2d.sin].
    cbn [fst snd] in Hy0, Hx0. subst y.
    rewrite hypot_0_r by assumption.
    f_equal; [| f_equal]; ring.
Qed.

Lemma distinct_modules_columns (wheels : list Translation2d.t) cor :
  (exists a b, In a wheels /\ In b wheels /\ a <> b) ->
  exists a b, In a wheels /\ In b wheels
    /\ (- Translation2d.y a + Translation2d.y cor
        <> - Translation2d.y b + Translation2d.y cor
        \/ Translation2d.x a - Translation2d.x cor
           <> Translation2d.x b - Translation2d.x cor).
Proof.
  intros (a & b & Ha & Hb & Hab). exists a, b. repeat split; try assumption.
  destruct a as [ax ay], b as [bx b_y]. simpl.
  destruct (Req_dec ax bx) as [Ex | Ex]; [| right; lra].
  destruct (Req_dec ay b_y) as [Ey | Ey]; [| left; lra].
  exfalso. apply Hab. now subst.
Qed.

(** C6, amended: on every kinematics object whose modules are not all at
    one place, for every chassis speed whose module velocities (about the
    robot center) keep their direction in a Rotation2d, that is, are longer
    than 1e-6 or point along +x, [toSwerveModuleStates] returns module
    states from which [toChassisSpeeds] recovers the chassis speed. *)
Theorem forward_inverts_inverse (pinv : Matrix -> Matrix)
    (wheels : list Translation2d.t) (k : SwerveDriveKinematics.t)
    (s : ChassisSpeeds.t) :
  (forall a n, shape a n 3 -> shape (pinv a) 3 n) ->
  MoorePenrose (ik_matrix wheels _identity_translation)
               (pinv (ik_matrix wheels _identity_translation)) ->
  (exists a b, In a wheels /\ In b wheels /\ a <> b) ->
  reachable pinv wheels k ->
  Forall (fun m => direction_kept (module_velocity s _identity_translation m))
         wheels ->
  exists states k',
    SwerveDriveKinematics.toSwerveModuleStates k s _identity_translation
      = Ok (states, k')
    /\ SwerveDriveKinematics.toChassisSpeeds k' states = Ok s.
Proof.
  intros Hshape HMP Hdistinct Hreach Hkept.
  pose proof (reachable_inv _ _ _ Hreach) as Hinv.
  assert (Hreach' := reach_step pinv wheels k s _identity_translation _ _ Hreach
                       (toSwerveModuleStates_ok _ _ k s _ Hinv)).
  pose proof (reachable_inv _ _ _ Hreach') as Hinv'.
  rewrite (toSwerveModuleStates_ok _ _ k s _ Hinv) in *.
  rewrite (active_cor_identity _ _ _ Hinv) in *.
  eexists. eexists. split; [reflexivity |].
  destruct (toChassisSpeeds_ok pinv wheels _
              (map (module_state s _identity_translation) wheels)
              Hshape Hinv') as (c & Hc & Hvec).
  { simpl. now rewrite length_map. }
  rewrite Hc. f_equal.
  rewrite (cartesian_module_states _ _ _ Hkept) in Hvec.
  set (A := ik_matrix wheels _identity_translation) in *.
  assert (HA : shape A (length A) 3).
  { split; [reflexivity | apply shape_rows_of]. }
  assert (HP : shape (pinv A) 3 (length A)) by now apply Hshape.
  pose proof (penrose_vec A (pinv A)
                [ChassisSpeeds.vx s; ChassisSpeeds.vy s; ChassisSpeeds.omega s]
                HA HP HMP) as Hpen.
  rewrite <- Hvec in Hpen.
  apply (rows_of_injective _ _ wheels) in Hpen.
  - destruct c, s. simpl in Hpen. now injection Hpen as -> -> ->.
  - now apply distinct_modules_columns.
Qed.

(** What one module state says about the velocity of its module: the
    speed is the length of the velocity; above 1e-6 the angle is the
    direction of the velocity, at or below it the angle is the identity. *)
Lemma module_state_direction chassisSpeeds cor module :
  let v := module_velocity chassisSpeeds cor module in
  let st := module_state chassisSpeeds cor module in
  SwerveModuleState.speed st = hypot (fst v) (snd v)
  /\ (1e-6 < SwerveModuleState.speed st ->
      SwerveModuleState.speed st * Rotation2d.cos (SwerveModuleState.angle st)
      = fst v
      /\ SwerveModuleState.speed st * Rotation2d.sin (SwerveModuleState.angle st)
         = snd v)
  /\ (SwerveModuleState.speed st <= 1e-6 ->
      SwerveModuleState.angle st = Rotation2d.default).
Proof.
  intros v st. unfold st, module_state. fold v.
  cbn [SwerveModuleState.speed SwerveModuleState.angle].
  destruct v as [x y]. cbn [fst snd].
  split; [reflexivity |]. split.
  - intros Hbig. rewrite (of_xy_large _ _ Hbig).
    cbn [Rotation2d.cos Rotation2d.sin]. split; field; lra.
  - intros Hsmall. now rewrite (of_xy_small _ _ Hsmall).
Qed.

Lemma Forall2_map_r {A B : Type} (P : A -> B -> Prop) (f : A -> B)
    (l : list A) :
  (forall a, P a (f a)) -> Forall2 P l (map f l).
Proof.
  intros H. induction l as [| a l IH]; cbn [map]; constructor; auto.
Qed.

(** C10, amended: on every kinematics object, for every chassis speed and
    every center of rotation, [toSwerveModuleStates] returns one state per
    module, whose speed is the hypot of the module velocity and is not
    negative.  For a module faster than 1e-6 the angle is the direction of
    its velocity (speed times cosine and sine give the velocity back); for
    a module at or below 1e-6 the angle is the identity rotation, whatever
    the direction of the velocity. *)
Theorem inverse_speeds_nonnegative (pinv : Matrix -> Matrix)
    (wheels : list Translation2d.t) (k : SwerveDriveKinematics.t)
    (chassisSpeeds : ChassisSpeeds.t) (centerOfRotation : Translation2d.t) :
  reachable pinv wheels k ->
  exists states k',
    SwerveDriveKinematics.toSwerveModuleStates k chassisSpeeds centerOfRotation
      = Ok (states, k')
    /\ states = map (module_state chassisSpeeds
                       (active_cor k centerOfRotation)) wheels
    /\ Forall (fun st => 0 <= SwerveModuleState.speed st) states
    /\ Forall2
         (fun module st =>
            let v := module_velocity chassisSpeeds
                       (active_cor k centerOfRotation) module in
            SwerveModuleState.speed st = hypot (fst v) (snd v)
            /\ (1e-6 < SwerveModuleState.speed st ->
                SwerveModuleState.speed st
                * Rotation2d.cos (SwerveModuleState.angle st) = fst v
                /\ SwerveModuleState.speed st
                   * Rotation2d.sin (SwerveModuleState.angle st) = snd v)
            /\ (SwerveModuleState.speed st <= 1e-6 ->
                SwerveModuleState.angle st = Rotation2d.default))
         wheels states.
Proof.
  intros Hreach. pose proof (reachable_inv _ _ _ Hreach) as Hinv.
  rewrite (toSwerveModuleStates_ok _ _ k _ _ Hinv).
  eexists. eexists. split; [reflexivity |]. split; [reflexivity |]. split.
  - apply Forall_forall. intros st Hin. apply in_map_iff in Hin.
    destruct Hin as (m & <- & _). apply hypot_nonneg.
  - apply Forall2_map_r. intros module. apply module_state_direction.
Qed.

(** [Pose2d] raises [AssertionError] exactly when one positional argument
    is left for the translation and it is not a [Translation2d]. *)
Lemma pose_init_asserts (args : list pyobj) (rotation : pyobj) :
  Pose2d.init args rotation = Raise AssertionError
  <-> exists obj,
        isinstance_Translation2d obj = false
        /\ ((rotation = PyNone /\ exists last, args = [obj; last])
            \/ (rotation <> PyNone /\ args = [obj])).
Proof.
  assert (Hpos : forall positional r,
            (translation <-
               match positional with
               | [translation] =>
                   if isinstance_Translation2d translation then Ok translation
                   else Raise AssertionError
               | _ => Translation2d_of_args positional
               end ;;
             Ok (PyPose2d translation r)) = Raise AssertionError
            <-> exists obj, isinstance_Translation2d obj = false
                            /\ positional = [obj]).
  { intros positional r. split.
    - destruct positional as [| a [| b [| c l]]]; cbn [Translation2d_of_args bind];
        try discriminate.
      destruct (isinstance_Translation2d a) eqn:E; cbn [bind]; [discriminate |].
      intros _. now exists a.
    - intros (obj & Hobj & ->). now rewrite Hobj. }
  unfold Pose2d.init.
  destruct rotation as [x | | r | x y | t r].
  2:{ destruct (rev args) as [| last front] eqn:Hrev;
        cbv beta iota zeta; rewrite Hpos;
        apply (f_equal (@rev pyobj)) in Hrev; rewrite rev_involutive in Hrev;
        cbn [rev] in Hrev; subst args.
      - split.
        + intros (obj & _ & H). discriminate.
        + intros (obj & _ & [[_ [last H]] | [H _]]);
            [discriminate | now contradiction H].
      - split.
        + intros (obj & Hobj & Hfront). exists obj. split; [exact Hobj |].
          left. split; [reflexivity |]. exists last. now rewrite Hfront.
        + intros (obj & Hobj & [[_ [last' H]] | [H _]]);
            [| now contradiction H].
          exists obj. split; [exact Hobj |].
          change [obj; last'] with ([obj] ++ [last']) in H.
          now apply app_inj_tail in H as [H _]. }
  all: cbv beta iota zeta; rewrite Hpos; split;
    [ intros (obj & Hobj & ->); exists obj; split; [exact Hobj |];
      right; split; [discriminate | reflexivity]
    | intros (obj & Hobj & [[H _] | [_ H]]); [discriminate |];
      exists obj; split; assumption ].
Qed.

(** C7, amended: the constructor raises exactly when fewer than two wheels
    are given, and [toChassisSpeeds] raises exactly when the number of
    module states is not the number of modules; both raise
    [AssertionError], the constructor without returning an object and
    [toChassisSpeeds] without assigning to one.  A third precondition is
    checked at run time: [Pose2d] raises [AssertionError] exactly when a
    single positional argument is left for the translation and it is not a
    [Translation2d]; its three documented forms return the pose. *)
Theorem runtime_checks (pinv : Matrix -> Matrix) :
  (forall a n, shape a n 3 -> shape (pinv a) 3 n) ->
  (forall wheels,
      ((exists e, SwerveDriveKinematics.init pinv wheels = Raise e)
       <-> (length wheels < 2)%nat)
      /\ ((length wheels < 2)%nat ->
          SwerveDriveKinematics.init pinv wheels = Raise AssertionError))
  /\ (forall wheels k wheel_states,
        reachable pinv wheels k ->
        ((exists e, SwerveDriveKinematics.toChassisSpeeds k wheel_states = Raise e)
         <-> length wheel_states <> SwerveDriveKinematics.num_modules k)
        /\ (length wheel_states <> SwerveDriveKinematics.num_modules k ->
            SwerveDriveKinematics.toChassisSpeeds k wheel_states
            = Raise AssertionError))
  /\ (forall args rotation,
        Pose2d.init args rotation = Raise AssertionError
        <-> exists obj,
              isinstance_Translation2d obj = false
              /\ ((rotation = PyNone /\ exists last, args = [obj; last])
                  \/ (rotation <> PyNone /\ args = [obj])))
  /\ (forall translation rotation x y,
        Pose2d.init [] PyNone = Ok (py_pose Pose2d.default)
        /\ Pose2d.init [py_translation translation; PyRotation2d rotation]
             PyNone
           = Ok (py_pose (Pose2d.mk translation rotation))
        /\ Pose2d.init [PyFloat x; PyFloat y; PyRotation2d rotation] PyNone
           = Ok (py_pose (Pose2d.of_xy x y rotation))).
Proof.
  intros Hshape. split; [| split; [| split]].
  - intros wheels. split; [split |].
    + intros [e He]. destruct (le_lt_dec 2 (length wheels)) as [H | H]; [| assumption].
      rewrite (init_ok pinv wheels H) in He. discriminate.
    + intros H. exists AssertionError. now apply init_raises.
    + apply init_raises.
  - intros wheels k ws Hreach.
    pose proof (reachable_inv _ _ _ Hreach) as Hinv.
    split; [split |].
    + intros [e He] Hlen.
      destruct (toChassisSpeeds_ok pinv wheels k ws Hshape Hinv Hlen)
        as (c & Hc & _).
      rewrite Hc in He. discriminate.
    + intros H. exists AssertionError. now apply toChassisSpeeds_raises.
    + apply toChassisSpeeds_raises.
  - apply pose_init_asserts.
  - intros translation rotation x y. repeat split.
Qed.

(** C2, amended: a call of [toSwerveModuleStates] with a center of
    rotation that compares unequal to the cached one rebuilds the third
    column of the inverse-kinematics matrix from the module offsets and the
    new center and caches the center; with one that compares equal the
    object is left as it is.  The forward-kinematics matrix is never
    recomputed: it stays the pseudoinverse of the matrix built by the
    constructor, for the robot center, and [toChassisSpeeds] is unchanged. *)
Theorem cor_change_keeps_forward (pinv : Matrix -> Matrix)
    (wheels : list Translation2d.t) (k : SwerveDriveKinematics.t)
    (chassisSpeeds : ChassisSpeeds.t) (centerOfRotation : Translation2d.t) :
  reachable pinv wheels k ->
  exists states k',
    SwerveDriveKinematics.toSwerveModuleStates k chassisSpeeds centerOfRotation
      = Ok (states, k')
    /\ (Translation2d.eq (SwerveDriveKinematics._prev_cor k) centerOfRotation
        = false ->
        SwerveDriveKinematics._inverse_kinematics k'
          = ik_matrix wheels centerOfRotation
        /\ SwerveDriveKinematics._prev_cor k' = centerOfRotation)
    /\ (Translation2d.eq (SwerveDriveKinematics._prev_cor k) centerOfRotation
        = true -> k' = k)
    /\ SwerveDriveKinematics.forward_kinematics k'
       = pinv (ik_matrix wheels _identity_translation)
    /\ (forall wheel_states,
          SwerveDriveKinematics.toChassisSpeeds k' wheel_states
          = SwerveDriveKinematics.toChassisSpeeds k wheel_states).
Proof.
  intros Hreach. pose proof (reachable_inv _ _ _ Hreach) as Hinv.
  rewrite (toSwerveModuleStates_ok _ _ k _ _ Hinv).
  destruct Hinv as (Hm & Hn & Hlen & Hik & Hfk).
  eexists. eexists. split; [reflexivity |].
  unfold active_cor. split; [| split; [| split]].
  - intros E. rewrite E. split; reflexivity.
  - intros E. rewrite E. destruct k as [ms n ik fk pc]. simpl in *.
    now subst.
  - exact Hfk.
  - intros ws. unfold SwerveDriveKinematics.toChassisSpeeds. simpl.
    now rewrite Hn.
Qed.

(** ** The robot of the tests *)

Lemma pinv_normal_shape (a : Matrix) (n : nat) :
  shape a n 3 -> shape (pinv_normal a) 3 n.
Proof.
  intros [Hn _]. unfold shape, pinv_normal, inv3. cbn [map length].
  split; [reflexivity |].
  repeat constructor; now rewrite length_map.
Qed.

Ltac list_eq := repeat (apply (f_equal2 (@cons _))); try reflexivity.

Ltac unfold_matrices :=
  cbv [ik_matrix rows_of test_wheels FL FR BL BR _identity_translation
       Translation2d.default Translation2d.x Translation2d.y
       flat_map app matmul transpose column map seq nth dot combine
       fold_right fst snd length pinv_normal inv3 gram test_forward mv].

Lemma gram_test (i j : nat) :
  (i < 3)%nat -> (j < 3)%nat ->
  gram (ik_matrix test_wheels _identity_translation) i j
  = if Nat.eqb i j then (if Nat.eqb i 2 then 1152 else 4) else 0.
Proof.
  intros Hi Hj.
  destruct i as [| [| [| i]]]; try lia;
    destruct j as [| [| [| j]]]; try lia;
    cbv [gram ik_matrix rows_of test_wheels FL FR BL BR _identity_translation
         Translation2d.default Translation2d.x Translation2d.y
         flat_map app column map nth dot combine fold_right fst snd Nat.eqb];
    lra.
Qed.

Lemma inv3_gram_test :
  inv3 (gram (ik_matrix test_wheels _identity_translation))
  = [[1/4; 0; 0]; [0; 1/4; 0]; [0; 0; 1/1152]].
Proof.
  unfold inv3. rewrite !gram_test by lia. cbv [Nat.eqb].
  list_eq; field.
Qed.

Lemma pinv_normal_test :
  pinv_normal (ik_matrix test_wheels _identity_translation) = test_forward.
Proof.
  unfold pinv_normal. rewrite inv3_gram_test.
  unfold_matrices. list_eq; lra.
Qed.

Lemma init_test :
  SwerveDriveKinematics.init pinv_normal test_wheels = Ok test_kinematics.
Proof.
  rewrite init_ok by (simpl; lia). rewrite pinv_normal_test. reflexivity.
Qed.

Lemma reachable_test : reachable pinv_normal test_wheels test_kinematics.
Proof. apply reach_init, init_test. Qed.

(** [test_forward] is the pseudoinverse of the matrix at the robot center. *)
Lemma moore_penrose_test :
  MoorePenrose (ik_matrix test_wheels _identity_translation) test_forward.
Proof.
  unfold MoorePenrose. repeat split; unfold_matrices; list_eq; lra.
Qed.

Lemma shape_ik_test cor :
  shape (ik_matrix test_wheels cor) (length (ik_matrix test_wheels cor)) 3.
Proof. split; [reflexivity | apply shape_rows_of]. Qed.

Lemma shape_test_forward : shape test_forward 3 8.
Proof. split; [reflexivity | repeat constructor]. Qed.

Lemma isclose_0_12 : isclose 0 12 = false.
Proof.
  unfold isclose. destruct (Rle_dec _ _) as [H | H]; [exfalso | reflexivity].
  revert H. unfold Rmax, Rabs.
  repeat (destruct (Rle_dec _ _) || destruct (Rcase_abs _)); lra.
Qed.

Lemma eq_identity_FL :
  Translation2d.eq (SwerveDriveKinematics._prev_cor test_kinematics) FL = false.
Proof.
  unfold Translation2d.eq. simpl. now rewrite isclose_0_12.
Qed.

(** C2 as stated fails on the robot of the tests: a call with the center of
    rotation at the front-left module rebuilds the inverse-kinematics
    matrix, and the forward-kinematics matrix of the object is not a
    pseudoinverse of the rebuilt matrix. *)
Lemma forward_not_pinv_of_rebuilt :
  let chassisSpeeds := ChassisSpeeds.mk 0 0 (2 * PI) in
  let after := SwerveDriveKinematics.mk test_wheels 4
                 (ik_matrix test_wheels FL) test_forward FL in
  SwerveDriveKinematics.init pinv_normal test_wheels = Ok test_kinematics
  /\ SwerveDriveKinematics.toSwerveModuleStates test_kinematics chassisSpeeds FL
     = Ok (map (module_state chassisSpeeds FL) test_wheels, after)
  /\ ~ MoorePenrose (SwerveDriveKinematics._inverse_kinematics after)
                    (SwerveDriveKinematics.forward_kinematics after).
Proof.
  intros cs after. split; [apply init_test | split].
  - rewrite (toSwerveModuleStates_ok _ _ _ _ _
               (reachable_inv _ _ _ reachable_test)).
    unfold active_cor. rewrite eq_identity_FL. reflexivity.
  - cbn [after SwerveDriveKinematics._inverse_kinematics
         SwerveDriveKinematics.forward_kinematics].
    intros HMP.
    pose proof (penrose_vec _ _ [0; 0; 1] (shape_ik_test FL)
                  shape_test_forward HMP) as H.
    revert H. unfold_matrices. intros H. injection H as H0 _. lra.
Qed.

Lemma module_state_slow (module : Translation2d.t) :
  module_state (ChassisSpeeds.mk 0 5e-7 0) _identity_translation module
  = SwerveModuleState.mk 5e-7 (Rotation2d.mk 0 1 0).
Proof.
  unfold module_state, module_velocity.
  cbn [ChassisSpeeds.vx ChassisSpeeds.vy ChassisSpeeds.omega fst snd].
  replace (0 + _ * 0) with 0 by ring.
  replace (5e-7 + _ * 0) with 5e-7 by ring.
  rewrite hypot_0_l by lra. rewrite of_xy_small; [reflexivity |].
  rewrite hypot_0_l; lra.
Qed.

(** C6 as stated fails on the robot of the tests: a sideways chassis speed
    of 5e-7 gives module velocities below the threshold of Rotation2d, the
    module angles are the identity, and forward kinematics returns a
    forward speed. *)
Lemma slow_speed_not_recovered :
  let s := ChassisSpeeds.mk 0 5e-7 0 in
  let states := map (module_state s _identity_translation) test_wheels in
  SwerveDriveKinematics.init pinv_normal test_wheels = Ok test_kinematics
  /\ SwerveDriveKinematics.toSwerveModuleStates test_kinematics s
       _identity_translation = Ok (states, test_kinematics)
  /\ SwerveDriveKinematics.toChassisSpeeds test_kinematics states
     = Ok (ChassisSpeeds.mk 5e-7 0 0)
  /\ Ok (ChassisSpeeds.mk 5e-7 0 0) <> Ok s.
Proof.
  intros s states. split; [apply init_test | split; [| split]].
  - rewrite (toSwerveModuleStates_ok _ _ _ _ _
               (reachable_inv _ _ _ reachable_test)).
    rewrite (active_cor_identity _ _ _ (reachable_inv _ _ _ reachable_test)).
    reflexivity.
  - unfold states, s, test_wheels. cbn [map]. rewrite !module_state_slow.
    unfold SwerveDriveKinematics.toChassisSpeeds.
    cbn [length SwerveDriveKinematics.num_modules test_kinematics Nat.eqb
         flat_map app SwerveModuleState.speed SwerveModuleState.angle
         Rotation2d.cos Rotation2d.sin SwerveDriveKinematics.forward_kinematics].
    rewrite matvec_mv by (unfold test_forward; repeat constructor).
    cbn [bind]. unfold_matrices.
    cbn [SwerveDriveKinematics.ChassisSpeeds_of_list].
    f_equal. f_equal; lra.
  - intros H. injection H as H _. lra.
Qed.

Lemma test_wheels_distinct :
  exists a b, In a test_wheels /\ In b test_wheels /\ a <> b.
Proof.
  exists FL, FR. repeat split; simpl; auto.
  intros H. injection H as H. lra.
Qed.

Lemma forward_inverts_inverse_witness :
  exists states k',
    SwerveDriveKinematics.toSwerveModuleStates test_kinematics
      (ChassisSpeeds.mk 0 5 0) _identity_translation = Ok (states, k')
    /\ SwerveDriveKinematics.toChassisSpeeds k' states
       = Ok (ChassisSpeeds.mk 0 5 0).
Proof.
  apply (forward_inverts_inverse pinv_normal test_wheels).
  - apply pinv_normal_shape.
  - rewrite pinv_normal_test. apply moore_penrose_test.
  - apply test_wheels_distinct.
  - apply reachable_test.
  - apply Forall_forall. intros m _. left.
    unfold module_velocity.
    cbn [ChassisSpeeds.vx ChassisSpeeds.vy ChassisSpeeds.omega fst snd].
    replace (0 + _ * 0) with 0 by ring.
    replace (5 + _ * 0) with 5 by ring.
    rewrite hypot_0_l; lra.
Defined.

Lemma inverse_speeds_nonnegative_witness :
  exists states k',
    SwerveDriveKinematics.toSwerveModuleStates test_kinematics
      (ChassisSpeeds.mk 0 0 (2 * PI)) FL = Ok (states, k')
    /\ states = map (module_state (ChassisSpeeds.mk 0 0 (2 * PI))
                       (active_cor test_kinematics FL)) test_wheels
    /\ Forall (fun st => 0 <= SwerveModuleState.speed st) states.
Proof.
  destruct (inverse_speeds_nonnegative pinv_normal test_wheels test_kinematics
              (ChassisSpeeds.mk 0 0 (2 * PI)) FL reachable_test)
    as (states & k' & Hcall & Hstates & Hspeeds & _).
  exists states, k'. repeat split; assumption.
Defined.

Lemma module_state_creeping (vx : R) (module : Translation2d.t) :
  Rabs vx <= 1e-6 ->
  module_state (ChassisSpeeds.mk vx 0 0) _identity_translation module
  = SwerveModuleState.mk (Rabs vx) Rotation2d.default.
Proof.
  intros Hvx. unfold module_state, module_velocity.
  cbn [ChassisSpeeds.vx ChassisSpeeds.vy ChassisSpeeds.omega fst snd].
  replace (vx + _ * 0) with vx by ring.
  replace (0 + _ * 0) with 0 by ring.
  assert (Hh : hypot vx 0 = Rabs vx).
  { unfold hypot. replace (vx * vx + 0 * 0) with (Rsqr vx) by (unfold Rsqr; ring).
    apply sqrt_Rsqr_abs. }
  rewrite Hh. now rewrite of_xy_small by (rewrite Hh; exact Hvx).
Qed.

(** C10 as stated fails on the robot of the tests: driving forward at 5e-7
    and driving backward at 5e-7 return the same module states, speed 5e-7
    at the identity angle, so the angle does not tell the direction. *)
Lemma slow_direction_not_encoded :
  let forward := ChassisSpeeds.mk 5e-7 0 0 in
  let backward := ChassisSpeeds.mk (-5e-7) 0 0 in
  let states := repeat (SwerveModuleState.mk 5e-7 Rotation2d.default) 4 in
  SwerveDriveKinematics.init pinv_normal test_wheels = Ok test_kinematics
  /\ SwerveDriveKinematics.toSwerveModuleStates test_kinematics forward
       _identity_translation = Ok (states, test_kinematics)
  /\ SwerveDriveKinematics.toSwerveModuleStates test_kinematics backward
       _identity_translation = Ok (states, test_kinematics)
  /\ forward <> backward.
Proof.
  intros forward backward states.
  pose proof (reachable_inv _ _ _ reachable_test) as Hinv.
  assert (Hpos : Rabs 5e-7 = 5e-7) by (apply Rabs_right; lra).
  assert (Hneg : Rabs (-5e-7) = 5e-7)
    by (unfold Rabs; destruct (Rcase_abs (-5e-7)); lra).
  split; [apply init_test | split; [| split]].
  - rewrite (toSwerveModuleStates_ok _ _ _ _ _ Hinv).
    rewrite (active_cor_identity _ _ _ Hinv).
    unfold forward, test_wheels. cbn [map].
    rewrite !module_state_creeping by (rewrite Hpos; lra).
    rewrite Hpos. reflexivity.
  - rewrite (toSwerveModuleStates_ok _ _ _ _ _ Hinv).
    rewrite (active_cor_identity _ _ _ Hinv).
    unfold backward, test_wheels. cbn [map].
    rewrite !module_state_creeping by (rewrite Hneg; lra).
    rewrite Hneg. reflexivity.
  - intros H. injection H as H. lra.
Qed.

Lemma runtime_checks_witness :
  SwerveDriveKinematics.init pinv_normal [FL] = Raise AssertionError
  /\ SwerveDriveKinematics.toChassisSpeeds test_kinematics
       [SwerveModuleState.default] = Raise AssertionError.
Proof.
  destruct (runtime_checks pinv_normal pinv_normal_shape)
    as (Hinit & Hfwd & _).
  split.
  - apply (proj2 (Hinit [FL])). simpl. lia.
  - apply (proj2 (Hfwd test_wheels test_kinematics [SwerveModuleState.default]
                    reachable_test)).
    simpl. lia.
Defined.

(** C7 as stated fails: the two checks are not the only ones.
    [Pose2d(5, Rotation2d())] takes the rotation from the end, is left with
    one argument that is not a [Translation2d], and raises
    [AssertionError]. *)
Lemma pose_translation_asserted :
  Pose2d.init [PyFloat 5; PyRotation2d Rotation2d.default] PyNone
  = Raise AssertionError.
Proof. reflexivity. Qed.

Lemma cor_change_keeps_forward_witness :
  exists states k',
    SwerveDriveKinematics.toSwerveModuleStates test_kinematics
      (ChassisSpeeds.mk 0 0 (2 * PI)) FL = Ok (states, k')
    /\ SwerveDriveKinematics.forward_kinematics k'
       = pinv_normal (ik_matrix test_wheels _identity_translation).
Proof.
  destruct (cor_change_keeps_forward pinv_normal test_wheels test_kinematics
              (ChassisSpeeds.mk 0 0 (2 * PI)) FL reachable_test)
    as (states & k' & Hcall & _ & _ & Hfk & _).
  exists states, k'. split; assumption.
Defined.

(** ** normalizeWheelSpeeds *)

Lemma length_modify h r f :
  length (SwerveDriveKinematics.modify h r f) = length h.
Proof.
  revert r. induction h as [| m tl IH]; intros [| r]; simpl; auto.
Qed.

Lemma read_modify_same h r f :
  (r < length h)%nat ->
  SwerveDriveKinematics.read (SwerveDriveKinematics.modify h r f) r
  = f (SwerveDriveKinematics.read h r).
Proof.
  unfold SwerveDriveKinematics.read.
  revert r. induction h as [| m tl IH]; intros [| r] H; simpl in *; try lia.
  - reflexivity.
  - apply IH. lia.
Qed.

Lemma read_modify_other h r r' f :
  r <> r' ->
  SwerveDriveKinematics.read (SwerveDriveKinematics.modify h r f) r'
  = SwerveDriveKinematics.read h r'.
Proof.
  unfold SwerveDriveKinematics.read.
  revert r r'. induction h as [| m tl IH]; intros [| r] [| r'] H; simpl;
    try reflexivity; try lia.
  apply IH. lia.
Qed.

(** The loop over a list of distinct addresses applies [f] once to each
    listed object and leaves the others alone. *)
Lemma loop_modify f (refs : list nat) :
  forall h,
    NoDup refs -> Forall (fun r => (r < length h)%nat) refs ->
    let h' := fold_left (fun h' r => SwerveDriveKinematics.modify h' r f)
                        refs h in
    length h' = length h
    /\ forall r, SwerveDriveKinematics.read h' r
                 = if in_dec Nat.eq_dec r refs
                   then f (SwerveDriveKinematics.read h r)
                   else SwerveDriveKinematics.read h r.
Proof.
  induction refs as [| r0 refs IH]; intros h Hnd Hin.
  - simpl. auto.
  - inversion Hnd as [| ? ? Hnotin Hnd']; subst.
    inversion Hin as [| ? ? Hr0 Hin']; subst.
    cbn [fold_left].
    destruct (IH (SwerveDriveKinematics.modify h r0 f) Hnd') as [Hlen Hread].
    { rewrite length_modify. exact Hin'. }
    split.
    + now rewrite Hlen, length_modify.
    + intros r. rewrite Hread.
      destruct (in_dec Nat.eq_dec r refs) as [Hi | Hi];
        destruct (in_dec Nat.eq_dec r (r0 :: refs)) as [Hj | Hj].
      * rewrite read_modify_other; [reflexivity |].
        intros ->. contradiction.
      * exfalso. apply Hj. now right.
      * destruct Hj as [-> | Hj]; [| contradiction].
        now apply read_modify_same.
      * rewrite read_modify_other; [reflexivity |].
        intros ->. apply Hj. now left.
Qed.

Lemma py_max_step (acc item : R) :
  (if Rlt_dec acc item then item else acc) = Rmax acc item.
Proof.
  unfold Rmax. destruct (Rlt_dec acc item), (Rle_dec acc item); lra.
Qed.

Lemma fold_left_max (l : list R) :
  forall v, 0 <= v -> Forall (fun x => 0 <= x) l ->
  fold_left (fun acc item => if Rlt_dec acc item then item else acc) l v
  = Rmax v (fold_right Rmax 0 l).
Proof.
  induction l as [| x l IH]; intros v Hv Hl.
  - simpl. now rewrite Rmax_left.
  - inversion Hl; subst. cbn [fold_left fold_right].
    rewrite py_max_step, IH; auto.
    + now rewrite Rmax_assoc.
    + apply Rle_trans with v; [assumption | apply Rmax_l].
Qed.

(** On non-negative speeds the builtin [max] is the largest [|speed|]. *)
Lemma py_max_nonneg h (refs : list nat) :
  refs <> [] ->
  Forall (fun r => 0 <= speed_at h r) refs ->
  SwerveDriveKinematics.py_max
    (map (fun r => SwerveModuleState.speed (SwerveDriveKinematics.read h r)) refs)
  = Ok (max_abs_speed h refs).
Proof.
  intros Hne Hpos. destruct refs as [| r0 refs]; [contradiction |].
  inversion Hpos as [| ? ? H0 Hpos']; subst.
  cbn [map SwerveDriveKinematics.py_max]. f_equal.
  rewrite fold_left_max.
  - unfold max_abs_speed. cbn [fold_right]. fold (speed_at h r0).
    rewrite (Rabs_right (speed_at h r0)) by lra. f_equal.
    clear Hne Hpos H0. induction refs as [| r refs IH]; [reflexivity |].
    inversion Hpos'; subst. cbn [map fold_right]. fold (speed_at h r).
    rewrite Rabs_right by lra. f_equal. now apply IH.
  - exact H0.
  - apply Forall_forall. intros x Hx. apply in_map_iff in Hx.
    destruct Hx as (r & <- & Hr). rewrite Forall_forall in Hpos'.
    now apply Hpos'.
Qed.

(** C3, amended: for a non-empty list of distinct module-state objects
    with non-negative speeds (and a largest speed that is not zero when it
    exceeds the limit), [normalizeWheelSpeeds] finds the largest [|speed|];
    when it exceeds [attainableMaxSpeed] every listed object has its speed
    multiplied by [attainableMaxSpeed / max] and keeps its angle, otherwise
    nothing changes; objects that are not listed are never touched. *)
Theorem normalizeWheelSpeeds_scales (h : SwerveDriveKinematics.heap)
    (moduleStates : list nat) (attainableMaxSpeed : R) :
  moduleStates <> [] ->
  NoDup moduleStates ->
  Forall (fun r => (r < length h)%nat) moduleStates ->
  Forall (fun r => 0 <= speed_at h r) moduleStates ->
  (attainableMaxSpeed < max_abs_speed h moduleStates ->
   max_abs_speed h moduleStates <> 0) ->
  exists h',
    SwerveDriveKinematics.normalizeWheelSpeeds h moduleStates attainableMaxSpeed
      = Ok h'
    /\ length h' = length h
    /\ (attainableMaxSpeed < max_abs_speed h moduleStates ->
        forall r, In r moduleStates ->
          SwerveDriveKinematics.read h' r
          = scale (attainableMaxSpeed / max_abs_speed h moduleStates)
                  (SwerveDriveKinematics.read h r))
    /\ (max_abs_speed h moduleStates <= attainableMaxSpeed -> h' = h)
    /\ (forall r, ~ In r moduleStates ->
          SwerveDriveKinematics.read h' r = SwerveDriveKinematics.read h r).
Proof.
  intros Hne Hnd Hin Hpos Hzero.
  unfold SwerveDriveKinematics.normalizeWheelSpeeds.
  rewrite (py_max_nonneg h moduleStates Hne Hpos). cbn [bind].
  set (M := max_abs_speed h moduleStates) in *.
  destruct (Rlt_dec attainableMaxSpeed M) as [Hlt | Hge].
  - destruct (Req_dec_T M 0) as [E | _]; [exfalso; now apply Hzero |].
    destruct (loop_modify (scale (attainableMaxSpeed / M)) moduleStates h
                Hnd Hin) as [Hlen Hread].
    eexists. split; [reflexivity |]. split; [exact Hlen |].
    split; [| split].
    + intros _ r Hr. unfold scale in Hread. rewrite Hread.
      destruct (in_dec Nat.eq_dec r moduleStates); [reflexivity | contradiction].
    + intros Hle. lra.
    + intros r Hr. unfold scale in Hread. rewrite Hread.
      destruct (in_dec Nat.eq_dec r moduleStates); [contradiction | reflexivity].
  - exists h. repeat split; try reflexivity. intros Hlt. lra.
Qed.

(** Decide the comparisons of a concrete computation, innermost first. *)
Ltac no_test t :=
  lazymatch t with
  | context [if _ then _ else _] => fail
  | _ => idtac
  end.

Ltac decide_R :=
  repeat match goal with
         | |- context [Rlt_dec ?a ?b] =>
             no_test a; no_test b; destruct (Rlt_dec a b); try lra
         | |- context [Rle_dec ?a ?b] =>
             no_test a; no_test b; destruct (Rle_dec a b); try lra
         | |- context [Req_dec_T ?a ?b] =>
             no_test a; no_test b; destruct (Req_dec_T a b); try lra
         | |- context [Rcase_abs ?a] =>
             no_test a; destruct (Rcase_abs a); try lra
         end.

Lemma max_abs_speed_test : max_abs_speed test_heap [0; 1; 2; 3]%nat = 7.
Proof.
  unfold max_abs_speed, speed_at, SwerveDriveKinematics.read, test_heap.
  cbn [fold_right nth SwerveModuleState.speed].
  unfold Rmax, Rabs. decide_R.
Qed.

Lemma normalizeWheelSpeeds_scales_witness :
  exists h',
    SwerveDriveKinematics.normalizeWheelSpeeds test_heap [0; 1; 2; 3]%nat 5.5
      = Ok h'
    /\ forall r, In r [0; 1; 2; 3]%nat ->
         SwerveDriveKinematics.read h' r
         = scale (5.5 / 7) (SwerveDriveKinematics.read test_heap r).
Proof.
  destruct (normalizeWheelSpeeds_scales test_heap [0; 1; 2; 3]%nat 5.5)
    as (h' & Hcall & _ & Hscaled & _).
  - discriminate.
  - repeat constructor; simpl; lia.
  - repeat constructor; simpl; lia.
  - unfold speed_at, SwerveDriveKinematics.read.
    repeat constructor; simpl; lra.
  - rewrite max_abs_speed_test. lra.
  - exists h'. split; [exact Hcall |].
    rewrite max_abs_speed_test in Hscaled. apply Hscaled. lra.
Defined.

(** C3 as stated fails when one module-state object is listed twice: the
    loop multiplies its speed by the factor once per occurrence. *)
Lemma normalize_twice_listed :
  let state := SwerveModuleState.mk 7 _zero_rotation in
  max_abs_speed [state] [0; 0]%nat = 7
  /\ SwerveDriveKinematics.normalizeWheelSpeeds [state] [0; 0]%nat 5.5
     = Ok [SwerveModuleState.mk (7 * (5.5 / 7) * (5.5 / 7)) _zero_rotation]
  /\ 7 * (5.5 / 7) * (5.5 / 7) <> 7 * (5.5 / 7).
Proof.
  intros state. split; [| split].
  - unfold max_abs_speed, speed_at, SwerveDriveKinematics.read, state.
    cbn [fold_right nth SwerveModuleState.speed].
    unfold Rmax, Rabs. decide_R.
  - unfold SwerveDriveKinematics.normalizeWheelSpeeds,
      SwerveDriveKinematics.py_max, SwerveDriveKinematics.read, state.
    cbn [map nth SwerveModuleState.speed fold_left bind].
    decide_R; reflexivity.
  - lra.
Qed.

(** With a negative speed the builtin [max] is not the largest [|speed|]:
    the module at -7 is scaled by 5.5/6 and stays above the limit. *)
Lemma normalize_negative_speed :
  let h := [SwerveModuleState.mk 5 _zero_rotation;
            SwerveModuleState.mk 6 _zero_rotation;
            SwerveModuleState.mk 4 _zero_rotation;
            SwerveModuleState.mk (-7) _zero_rotation] in
  max_abs_speed h [0; 1; 2; 3]%nat = 7
  /\ SwerveDriveKinematics.normalizeWheelSpeeds h [0; 1; 2; 3]%nat 5.5
     = Ok [SwerveModuleState.mk (5 * (5.5 / 6)) _zero_rotation;
           SwerveModuleState.mk (6 * (5.5 / 6)) _zero_rotation;
           SwerveModuleState.mk (4 * (5.5 / 6)) _zero_rotation;
           SwerveModuleState.mk (-7 * (5.5 / 6)) _zero_rotation].
Proof.
  intros h. split.
  - unfold max_abs_speed, speed_at, SwerveDriveKinematics.read, h.
    cbn [fold_right nth SwerveModuleState.speed].
    unfold Rmax, Rabs. decide_R.
  - unfold SwerveDriveKinematics.normalizeWheelSpeeds,
      SwerveDriveKinematics.py_max, SwerveDriveKinematics.read, h.
    cbn [map nth SwerveModuleState.speed fold_left bind].
    decide_R; reflexivity.
Qed.

(** With nothing above a negative limit but a largest speed of zero the
    factor cannot be computed. *)
Lemma normalize_zero_division :
  SwerveDriveKinematics.normalizeWheelSpeeds
    [SwerveModuleState.mk 0 _zero_rotation] [0%nat] (-1)
  = Raise ZeroDivisionError.
Proof.
  unfold SwerveDriveKinematics.normalizeWheelSpeeds,
    SwerveDriveKinematics.py_max, SwerveDriveKinematics.read.
  cbn [map nth SwerveModuleState.speed fold_left bind].
  decide_R; reflexivity.
Qed.

Lemma normalize_empty (h : SwerveDriveKinematics.heap) (a : R) :
  SwerveDriveKinematics.normalizeWheelSpeeds h [] a = Raise ValueError.
Proof. reflexivity. Qed.

(** ** Odometry *)

(** A twist without linear part leaves the translation of the pose. *)
Lemma exp_zero_displacement (p : Pose2d.t) (a b dtheta : R) :
  Pose2d.translation (Pose2d.exp p (Twist2d.mk (a * 0) (b * 0) dtheta))
  = Pose2d.translation p.
Proof.
  unfold Pose2d.exp, Pose2d.add, Translation2d.add, Translation2d.rotateBy.
  cbn [Pose2d.translation Transform2d.translation Translation2d.x
       Translation2d.y Twist2d.dx Twist2d.dy Twist2d.dtheta].
  destruct (Pose2d.translation p) as [px py].
  cbn [Translation2d.x Translation2d.y]. f_equal; ring.
Qed.

(** C4: a call of [updateWithTime] for which forward kinematics returns
    [speeds] takes dt as the time since the previous timestamp, or 0 when
    there is none, composes the gyro angle with the stored offset, advances
    the pose by [exp] of the twist (vx dt, vy dt, angle - previous angle),
    returns that pose with the corrected angle as rotation, and stores the
    pose, the angle and the timestamp; a first call leaves the translation
    where it was. *)
Theorem updateWithTime_step (self : SwerveDriveOdometry.t) (currentTime : R)
    (gyroAngle : Rotation2d.t) (module_states : list SwerveModuleState.t)
    (speeds : ChassisSpeeds.t) :
  SwerveDriveKinematics.toChassisSpeeds (SwerveDriveOdometry.kinematics self)
    module_states = Ok speeds ->
  let dt := match SwerveDriveOdometry._previous_time self with
            | Some previous => currentTime - previous
            | None => 0
            end in
  let angle := Rotation2d.add gyroAngle (SwerveDriveOdometry._gyro_offset self) in
  let twist :=
    Twist2d.mk (ChassisSpeeds.vx speeds * dt) (ChassisSpeeds.vy speeds * dt)
      (Rotation2d.value
         (Rotation2d.sub angle (SwerveDriveOdometry._previous_angle self))) in
  let pose :=
    Pose2d.mk
      (Pose2d.translation (Pose2d.exp (SwerveDriveOdometry._pose self) twist))
      angle in
  SwerveDriveOdometry.updateWithTime self currentTime gyroAngle module_states
  = (Ok pose,
     SwerveDriveOdometry.mk (SwerveDriveOdometry.kinematics self) pose
       (Some currentTime) angle (SwerveDriveOdometry._gyro_offset self))
  /\ Pose2d.rotation pose = angle
  /\ (SwerveDriveOdometry._previous_time self = None ->
      Pose2d.translation pose
      = Pose2d.translation (SwerveDriveOdometry._pose self)).
Proof.
  intros Hfk dt angle twist pose.
  split; [| split].
  - unfold SwerveDriveOdometry.updateWithTime.
    cbn [SwerveDriveOdometry.kinematics SwerveDriveOdometry._pose
         SwerveDriveOdometry._previous_time SwerveDriveOdometry._previous_angle
         SwerveDriveOdometry._gyro_offset].
    rewrite Hfk. reflexivity.
  - reflexivity.
  - intros Hnone. unfold pose, twist, dt. rewrite Hnone.
    cbn [Pose2d.translation]. apply exp_zero_displacement.
Qed.

(** When forward kinematics raises, the call raises with the timestamp
    already stored and nothing else changed. *)
Lemma updateWithTime_raises (self : SwerveDriveOdometry.t) (currentTime : R)
    (gyroAngle : Rotation2d.t) (module_states : list SwerveModuleState.t)
    (e : exn) :
  SwerveDriveKinematics.toChassisSpeeds (SwerveDriveOdometry.kinematics self)
    module_states = Raise e ->
  SwerveDriveOdometry.updateWithTime self currentTime gyroAngle module_states
  = (Raise e,
     SwerveDriveOdometry.mk (SwerveDriveOdometry.kinematics self)
       (SwerveDriveOdometry._pose self) (Some currentTime)
       (SwerveDriveOdometry._previous_angle self)
       (SwerveDriveOdometry._gyro_offset self)).
Proof.
  intros H. unfold SwerveDriveOdometry.updateWithTime.
  cbn [SwerveDriveOdometry.kinematics]. now rewrite H.
Qed.


(** The four modules of the test robot driving forward at 5. *)
Lemma toChassisSpeeds_cruising :
  SwerveDriveKinematics.toChassisSpeeds test_kinematics
    [SwerveModuleState.mk 5 Rotation2d.default;
     SwerveModuleState.mk 5 Rotation2d.default;
     SwerveModuleState.mk 5 Rotation2d.default;
     SwerveModuleState.mk 5 Rotation2d.default]
  = Ok (ChassisSpeeds.mk 5 0 0).
Proof.
  unfold SwerveDriveKinematics.toChassisSpeeds.
  cbn [length SwerveDriveKinematics.num_modules test_kinematics Nat.eqb
       flat_map app SwerveModuleState.speed SwerveModuleState.angle
       Rotation2d.default
       Rotation2d.cos Rotation2d.sin SwerveDriveKinematics.forward_kinematics].
  rewrite matvec_mv by (unfold test_forward; repeat constructor).
  cbn [bind]. unfold_matrices.
  cbn [SwerveDriveKinematics.ChassisSpeeds_of_list].
  f_equal. f_equal; lra.
Qed.

Lemma updateWithTime_step_witness :
  let states := [SwerveModuleState.mk 5 Rotation2d.default;
                 SwerveModuleState.mk 5 Rotation2d.default;
                 SwerveModuleState.mk 5 Rotation2d.default;
                 SwerveModuleState.mk 5 Rotation2d.default] in
  let first := SwerveDriveOdometry.init test_kinematics Rotation2d.default None in
  let later := SwerveDriveOdometry.mk test_kinematics Pose2d.default (Some 1)
                 Rotation2d.default Rotation2d.default in
  Pose2d.translation
    (SwerveDriveOdometry._pose
       (snd (SwerveDriveOdometry.updateWithTime first 0 Rotation2d.default
               states)))
  = Pose2d.translation Pose2d.default
  /\ fst (SwerveDriveOdometry.updateWithTime later 3 Rotation2d.default states)
     = Ok (Pose2d.mk
             (Pose2d.translation
                (Pose2d.exp Pose2d.default
                   (Twist2d.mk (5 * (3 - 1)) (0 * (3 - 1))
                      (Rotation2d.value
                         (Rotation2d.sub
                            (Rotation2d.add Rotation2d.default
                                            Rotation2d.default)
                            Rotation2d.default)))))
             (Rotation2d.add Rotation2d.default Rotation2d.default)).
Proof.
  intros states first later. split.
  - destruct (updateWithTime_step first 0 Rotation2d.default states
                (ChassisSpeeds.mk 5 0 0) toChassisSpeeds_cruising)
      as (Hcall & _ & Hfirst).
    rewrite Hcall. cbn [snd SwerveDriveOdometry._pose].
    apply Hfirst. reflexivity.
  - destruct (updateWithTime_step later 3 Rotation2d.default states
                (ChassisSpeeds.mk 5 0 0) toChassisSpeeds_cruising)
      as (Hcall & _).
    rewrite Hcall. reflexivity.
Defined.

(** C8: [resetPosition] stores the pose, its rotation as previous angle
    and [pose.rotation - gyroAngle] as gyro offset; the kinematics and the
    previous timestamp are those of before, so the next update takes dt
    against that timestamp, or 0 when there was none. *)
Theorem resetPosition_frame (self : SwerveDriveOdometry.t) (pose : Pose2d.t)
    (gyroAngle : Rotation2d.t) :
  let self' := SwerveDriveOdometry.resetPosition self pose gyroAngle in
  SwerveDriveOdometry._pose self' = pose
  /\ SwerveDriveOdometry._previous_angle self' = Pose2d.rotation pose
  /\ SwerveDriveOdometry._gyro_offset self'
     = Rotation2d.sub (Pose2d.rotation pose) gyroAngle
  /\ SwerveDriveOdometry.kinematics self' = SwerveDriveOdometry.kinematics self
  /\ SwerveDriveOdometry._previous_time self'
     = SwerveDriveOdometry._previous_time self
  /\ forall currentTime nextGyro module_states,
       let dt := match SwerveDriveOdometry._previous_time self with
                 | Some previous => currentTime - previous
                 | None => 0
                 end in
       let angle :=
         Rotation2d.add nextGyro
           (Rotation2d.sub (Pose2d.rotation pose) gyroAngle) in
       fst (SwerveDriveOdometry.updateWithTime self' currentTime nextGyro
              module_states)
       = match SwerveDriveKinematics.toChassisSpeeds
                 (SwerveDriveOdometry.kinematics self) module_states with
         | Ok speeds =>
             Ok (Pose2d.mk
                   (Pose2d.translation
                      (Pose2d.exp pose
                         (Twist2d.mk (ChassisSpeeds.vx speeds * dt)
                                     (ChassisSpeeds.vy speeds * dt)
                                     (Rotation2d.value
                                        (Rotation2d.sub angle
                                           (Pose2d.rotation pose))))))
                   angle)
         | Raise e => Raise e
         end.
Proof.
  intros self'. repeat split.
  intros currentTime nextGyro module_states dt angle.
  unfold SwerveDriveOdometry.updateWithTime, self',
    SwerveDriveOdometry.resetPosition.
  cbn [SwerveDriveOdometry.kinematics SwerveDriveOdometry._pose
       SwerveDriveOdometry._previous_time SwerveDriveOdometry._previous_angle
       SwerveDriveOdometry._gyro_offset].
  destruct (SwerveDriveKinematics.toChassisSpeeds _ _); reflexivity.
Qed.

(** * Further properties of the geometry classes *)

(** ** Rotation2d *)

(** X1: degrees and radians are inverse conversions: a rotation built
    from degrees reports those degrees, and rebuilding a rotation from its
    own degrees gives back its radian value. *)
Theorem degrees_round_trip (d : R) (r : Rotation2d.t) :
  Rotation2d.getDegrees (Rotation2d.fromDegrees d) = d
  /\ Rotation2d.getRadians (Rotation2d.fromDegrees (Rotation2d.getDegrees r))
     = Rotation2d.getRadians r.
Proof.
  pose proof PI_neq0 as Hpi.
  unfold Rotation2d.getDegrees, Rotation2d.getRadians, Rotation2d.fromDegrees,
    Rotation2d.of_value, Rotation2d.degrees, Rotation2d.radians.
  cbn [Rotation2d.value]. split; field; assumption.
Qed.





Lemma sub_self_rotation (a : Rotation2d.t) :
  consistent a -> Rotation2d.sub a a = Rotation2d.default.
Proof.
  intros Ha. pose proof (consistent_unit _ Ha) as Ua.
  destruct (sub_on_circle a a Ha Ha) as [_ Hsub]. rewrite Hsub.
  replace (Rotation2d.cos a * Rotation2d.cos a
           + Rotation2d.sin a * Rotation2d.sin a) with 1 by lra.
  replace (Rotation2d.sin a * Rotation2d.cos a
           - Rotation2d.cos a * Rotation2d.sin a) with 0 by ring.
  now rewrite atan2_0_1.
Qed.

(** X4: a rotation minus itself is the identity rotation, and negating
    twice gives the rotation back. *)
Theorem sub_self_and_double_neg (a : Rotation2d.t) :
  Rotation2d.constructed a ->
  Rotation2d.sub a a = Rotation2d.default
  /\ Rotation2d.neg (Rotation2d.neg a) = a.
Proof.
  intros Ha. apply constructed_consistent in Ha.
  split.
  - now apply sub_self_rotation.
  - unfold Rotation2d.neg, Rotation2d.of_value. cbn [Rotation2d.value].
    rewrite Ropp_involutive. destruct Ha as [Hc Hs].
    destruct a as [v c s]. cbn [Rotation2d.value Rotation2d.cos Rotation2d.sin] in *.
    now subst.
Qed.

Lemma sub_self_and_double_neg_witness :
  Rotation2d.sub (Rotation2d.of_xy 3 4) (Rotation2d.of_xy 3 4)
  = Rotation2d.default.
Proof.
  apply (sub_self_and_double_neg (Rotation2d.of_xy 3 4)). constructor.
Defined.

(** X5: [tan] raises ZeroDivisionError exactly when the stored cosine is
    zero, which happens for every rotation built from components (0, y)
    with |y| > 1e-6; otherwise it returns the tangent of the angle. *)
Theorem tan_behaviour (r : Rotation2d.t) :
  Rotation2d.constructed r ->
  (Rotation2d.tan r = Raise ZeroDivisionError <-> Rotation2d.cos r = 0)
  /\ (Rotation2d.cos r <> 0 ->
      Rotation2d.tan r = Ok (tan (Rotation2d.value r)))
  /\ (forall y, 1e-6 < Rabs y ->
        Rotation2d.tan (Rotation2d.of_xy 0 y) = Raise ZeroDivisionError).
Proof.
  intros Hr. apply constructed_consistent in Hr. destruct Hr as [Hc Hs].
  unfold Rotation2d.tan. split; [| split].
  - destruct (Req_dec_T (Rotation2d.cos r) 0) as [E | E].
    + split; auto.
    + split; [discriminate | contradiction].
  - intros H. destruct (Req_dec_T (Rotation2d.cos r) 0) as [E | E];
      [contradiction |].
    unfold tan. now rewrite Hc, Hs.
  - intros y Hy.
    assert (Hh : hypot 0 y = Rabs y).
    { unfold hypot. replace (0 * 0 + y * y) with (Rsqr y) by (unfold Rsqr; ring).
      apply sqrt_Rsqr_abs. }
    rewrite of_xy_large by (rewrite Hh; assumption).
    cbn [Rotation2d.cos].
    destruct (Req_dec_T (0 / hypot 0 y) 0) as [E | E]; [reflexivity |].
    exfalso. apply E. unfold Rdiv. ring.
Qed.

Lemma tan_behaviour_witness :
  Rotation2d.tan (Rotation2d.of_value 0) = Ok (tan 0).
Proof.
  destruct (tan_behaviour (Rotation2d.of_value 0)) as (_ & H & _).
  - constructor.
  - apply H. cbn [Rotation2d.cos Rotation2d.of_value]. rewrite cos_0. lra.
Defined.

(** ** Translation2d *)

(** X6: rotating a translation does not change its norm. *)
Theorem rotateBy_preserves_norm (t : Translation2d.t) (r : Rotation2d.t) :
  Rotation2d.constructed r ->
  Translation2d.norm (Translation2d.rotateBy t r) = Translation2d.norm t.
Proof.
  intros Hr. apply constructed_consistent in Hr.
  pose proof (consistent_unit _ Hr) as U.
  unfold Translation2d.norm, Translation2d.rotateBy, hypot.
  cbn [Translation2d.x Translation2d.y]. f_equal.
  set (c := Rotation2d.cos r) in *. set (s := Rotation2d.sin r) in *.
  transitivity ((Translation2d.x t * Translation2d.x t
                 + Translation2d.y t * Translation2d.y t) * (c * c + s * s)).
  - ring.
  - rewrite U. ring.
Qed.

Lemma rotateBy_preserves_norm_witness :
  Translation2d.norm
    (Translation2d.rotateBy (Translation2d.mk 2 0) (Rotation2d.fromDegrees 90))
  = Translation2d.norm (Translation2d.mk 2 0).
Proof.
  apply rotateBy_preserves_norm. unfold Rotation2d.fromDegrees. constructor.
Defined.

(** X7: rotating by one rotation and then by another is rotating by their
    sum. *)
Theorem rotateBy_add (t : Translation2d.t) (a b : Rotation2d.t) :
  Rotation2d.constructed a -> Rotation2d.constructed b ->
  Translation2d.rotateBy (Translation2d.rotateBy t a) b
  = Translation2d.rotateBy t (Rotation2d.add a b).
Proof.
  intros Ha Hb.
  apply constructed_consistent in Ha. apply constructed_consistent in Hb.
  destruct (add_on_circle a b Ha Hb) as [_ Hadd]. rewrite Hadd.
  unfold Translation2d.rotateBy.
  cbn [Translation2d.x Translation2d.y Rotation2d.cos Rotation2d.sin].
  f_equal; ring.
Qed.

Lemma rotateBy_add_witness :
  Translation2d.rotateBy
    (Translation2d.rotateBy (Translation2d.mk 2 0) (Rotation2d.of_value 1))
    (Rotation2d.of_xy 3 4)
  = Translation2d.rotateBy (Translation2d.mk 2 0)
      (Rotation2d.add (Rotation2d.of_value 1) (Rotation2d.of_xy 3 4)).
Proof. apply rotateBy_add; constructor. Defined.

Lemma rotate_back (t : Translation2d.t) (r : Rotation2d.t) :
  consistent r ->
  Translation2d.rotateBy (Translation2d.rotateBy t (Rotation2d.neg r)) r = t.
Proof.
  intros Hr. pose proof (consistent_unit _ Hr) as U. destruct Hr as [Hc Hs].
  unfold Translation2d.rotateBy, Rotation2d.neg, Rotation2d.of_value.
  cbn [Translation2d.x Translation2d.y Rotation2d.cos Rotation2d.sin].
  rewrite cos_neg, sin_neg, <- Hc, <- Hs.
  destruct t as [x y]. cbn [Translation2d.x Translation2d.y].
  set (c := Rotation2d.cos r) in *. set (s := Rotation2d.sin r) in *.
  f_equal.
  - transitivity (x * (c * c + s * s)); [ring | rewrite U; ring].
  - transitivity (y * (c * c + s * s)); [ring | rewrite U; ring].
Qed.

Lemma rotate_forth (t : Translation2d.t) (r : Rotation2d.t) :
  consistent r ->
  Translation2d.rotateBy (Translation2d.rotateBy t r) (Rotation2d.neg r) = t.
Proof.
  intros Hr. pose proof (consistent_unit _ Hr) as U. destruct Hr as [Hc Hs].
  unfold Translation2d.rotateBy, Rotation2d.neg, Rotation2d.of_value.
  cbn [Translation2d.x Translation2d.y Rotation2d.cos Rotation2d.sin].
  rewrite cos_neg, sin_neg, <- Hc, <- Hs.
  destruct t as [x y]. cbn [Translation2d.x Translation2d.y].
  set (c := Rotation2d.cos r) in *. set (s := Rotation2d.sin r) in *.
  f_equal.
  - transitivity (x * (c * c + s * s)); [ring | rewrite U; ring].
  - transitivity (y * (c * c + s * s)); [ring | rewrite U; ring].
Qed.

(** X8: rotating by a rotation and then by its negation gives the
    translation back, and so does rotating by the negation first. *)
Theorem rotateBy_neg (t : Translation2d.t) (r : Rotation2d.t) :
  Rotation2d.constructed r ->
  Translation2d.rotateBy (Translation2d.rotateBy t r) (Rotation2d.neg r) = t
  /\ Translation2d.rotateBy (Translation2d.rotateBy t (Rotation2d.neg r)) r = t.
Proof.
  intros Hr. apply constructed_consistent in Hr.
  split; [now apply rotate_forth | now apply rotate_back].
Qed.

Lemma rotateBy_neg_witness :
  Translation2d.rotateBy
    (Translation2d.rotateBy (Translation2d.mk 2 1) (Rotation2d.of_value 1))
    (Rotation2d.neg (Rotation2d.of_value 1))
  = Translation2d.mk 2 1.
Proof.
  apply (rotateBy_neg (Translation2d.mk 2 1) (Rotation2d.of_value 1)).
  constructor.
Defined.

(** X9: dividing a translation by zero raises ZeroDivisionError, and
    dividing by a non-zero scalar undoes the multiplication by it. *)
Theorem truediv_behaviour (t : Translation2d.t) (k : R) :
  Translation2d.truediv t 0 = Raise ZeroDivisionError
  /\ (k <> 0 ->
      Translation2d.truediv (Translation2d.mul t k) k = Ok t).
Proof.
  unfold Translation2d.truediv, Translation2d.mul. split.
  - destruct (Req_dec_T 0 0) as [_ | H]; [reflexivity | contradiction].
  - intros Hk. destruct (Req_dec_T k 0) as [E | _]; [contradiction |].
    destruct t as [x y]. cbn [Translation2d.x Translation2d.y].
    f_equal. f_equal; field; assumption.
Qed.

Lemma truediv_behaviour_witness :
  Translation2d.truediv (Translation2d.mul (Translation2d.mk 1 2) 3) 3
  = Ok (Translation2d.mk 1 2).
Proof.
  apply (proj2 (truediv_behaviour (Translation2d.mk 1 2) 3)). lra.
Defined.

Lemma hypot_eq_0 (x y : R) : hypot x y = 0 -> x = 0 /\ y = 0.
Proof.
  intros H. pose proof (hypot_sqr x y) as Hs. rewrite H in Hs.
  split; nra.
Qed.

Lemma hypot_triangle (a b c d : R) :
  hypot (a + c) (b + d) <= hypot a b + hypot c d.
Proof.
  pose proof (hypot_nonneg a b) as H1. pose proof (hypot_nonneg c d) as H2.
  pose proof (hypot_sqr a b) as S1. pose proof (hypot_sqr c d) as S2.
  pose proof (hypot_sqr (a + c) (b + d)) as S3.
  pose proof (hypot_nonneg (a + c) (b + d)) as H3.
  set (h1 := hypot a b) in *. set (h2 := hypot c d) in *.
  set (h3 := hypot (a + c) (b + d)) in *.
  assert (CS : a * c + b * d <= h1 * h2).
  { destruct (Rle_dec (a * c + b * d) 0) as [Hn | Hp]; [nra |].
    apply Rsqr_incr_0_var; [| nra]. unfold Rsqr.
    replace (h1 * h2 * (h1 * h2)) with ((h1 * h1) * (h2 * h2)) by ring.
    rewrite S1, S2.
    pose proof (Rle_0_sqr (a * d - b * c)) as Hsq. unfold Rsqr in Hsq. nra. }
  apply Rsqr_incr_0_var; [| lra]. unfold Rsqr. nra.
Qed.

(** X10: [getDistance] is a metric: symmetric, zero exactly between equal
    translations, and it satisfies the triangle inequality; it is the norm
    of the difference. *)
Theorem getDistance_metric (a b c : Translation2d.t) :
  Translation2d.getDistance a b = Translation2d.getDistance b a
  /\ (Translation2d.getDistance a b = 0 <-> a = b)
  /\ Translation2d.getDistance a c
     <= Translation2d.getDistance a b + Translation2d.getDistance b c
  /\ Translation2d.getDistance a b
     = Translation2d.norm (Translation2d.sub b a).
Proof.
  unfold Translation2d.getDistance, Translation2d.norm, Translation2d.sub.
  destruct a as [ax ay], b as [bx b_y], c as [cx cy].
  cbn [Translation2d.x Translation2d.y].
  split; [| split; [| split]].
  - unfold hypot. f_equal. ring.
  - split.
    + intros H. apply hypot_eq_0 in H as [Hx Hy]. f_equal; lra.
    + intros H. injection H as -> ->. unfold hypot.
      replace ((bx - bx) * (bx - bx) + (b_y - b_y) * (b_y - b_y)) with 0 by ring.
      apply sqrt_0.
  - replace (cx - ax) with ((bx - ax) + (cx - bx)) by ring.
    replace (cy - ay) with ((b_y - ay) + (cy - b_y)) by ring.
    apply hypot_triangle.
  - reflexivity.
Qed.

Lemma isclose_sym (a b : R) : isclose a b = isclose b a.
Proof.
  unfold isclose. rewrite (Rabs_minus_sym a b), (Rmax_comm (Rabs a) (Rabs b)).
  reflexivity.
Qed.

(** X11: the tolerance equality of translations is reflexive and
    symmetric, and against the origin it is exact: only the origin itself
    compares equal to [Translation2d()]. *)
Theorem translation_eq_behaviour (a b : Translation2d.t) :
  Translation2d.eq a a = true
  /\ Translation2d.eq a b = Translation2d.eq b a
  /\ (Translation2d.eq a Translation2d.default = true
      <-> a = Translation2d.default).
Proof.
  split; [| split].
  - apply Translation2d_eq_refl.
  - unfold Translation2d.eq.
    now rewrite (isclose_sym (Translation2d.x a)), (isclose_sym (Translation2d.y a)).
  - split.
    + apply eq_identity_translation.
    + intros ->. apply Translation2d_eq_refl.
Qed.

(** ** Pose2d and Transform2d *)










(** X14: a pose relative to itself is the pose at the origin facing +x. *)
Theorem relativeTo_self (p : Pose2d.t) :
  Rotation2d.constructed (Pose2d.rotation p) ->
  Pose2d.relativeTo p p = Pose2d.default.
Proof.
  intros Hp. apply constructed_consistent in Hp.
  pose proof (sub_self_rotation _ Hp) as Hsub.
  unfold Pose2d.relativeTo, Pose2d.sub, Pose2d.default, _zero_rotation.
  cbn [Transform2d.translation Transform2d.rotation]. rewrite Hsub.
  f_equal. unfold Translation2d.rotateBy, Translation2d.sub.
  cbn [Translation2d.x Translation2d.y]. f_equal; ring.
Qed.

Lemma relativeTo_self_witness :
  Pose2d.relativeTo (Pose2d.of_xy 1 2 (Rotation2d.of_value 5))
                    (Pose2d.of_xy 1 2 (Rotation2d.of_value 5))
  = Pose2d.default.
Proof. apply relativeTo_self. constructor. Defined.

(** ** The exponential and the logarithm *)

Lemma of_xy_1_0 : Rotation2d.of_xy 1 0 = Rotation2d.default.
Proof.
  rewrite of_xy_on_circle by ring. now rewrite atan2_0_1.
Qed.

Lemma rotateBy_default (t : Translation2d.t) :
  Translation2d.rotateBy t Rotation2d.default = t.
Proof.
  destruct t as [x y]. unfold Translation2d.rotateBy.
  cbn [Translation2d.x Translation2d.y Rotation2d.cos Rotation2d.sin
       Rotation2d.default].
  f_equal; ring.
Qed.

(** The transform that [exp] applies. *)
Lemma exp_transform (p : Pose2d.t) (dx dy dtheta s c : R) :
  (if Rlt_dec (Rabs dtheta) 1e-9
   then (1 - 1 / 6 * dtheta ^ 2, 0.5 * dtheta)
   else (sin dtheta / dtheta, (1 - cos dtheta) / dtheta)) = (s, c) ->
  Pose2d.exp p (Twist2d.mk dx dy dtheta)
  = Pose2d.add p
      (Transform2d.mk
         (Translation2d.mk (dx * s - dy * c) (dx * c + dy * s))
         (Rotation2d.mk (atan2 (sin dtheta) (cos dtheta))
                        (cos dtheta) (sin dtheta))).
Proof.
  intros Hsc. unfold Pose2d.exp.
  cbn [Twist2d.dx Twist2d.dy Twist2d.dtheta]. rewrite Hsc. cbn [fst snd].
  rewrite (of_xy_on_circle (cos dtheta) (sin dtheta)); [reflexivity |].
  pose proof (sin2_cos2 dtheta) as H. unfold Rsqr in H. lra.
Qed.

(** A twist without rotation transforms the pose by its linear part. *)
Lemma exp_zero_turn (p : Pose2d.t) (dx dy : R) :
  Pose2d.exp p (Twist2d.mk dx dy 0)
  = Pose2d.add p
      (Transform2d.mk (Translation2d.mk dx dy) Rotation2d.default).
Proof.
  rewrite (exp_transform p dx dy 0 (1 - 1 / 6 * 0 ^ 2) (0.5 * 0)).
  - rewrite cos_0, sin_0, atan2_0_1. unfold Rotation2d.default.
    f_equal. f_equal. f_equal; ring.
  - destruct (Rlt_dec (Rabs 0) 1e-9) as [_ | Hn]; [reflexivity |].
    exfalso. apply Hn. rewrite Rabs_R0. lra.
Qed.

(** X15: a twist without rotation moves the pose along a straight line:
    the pose is transformed by the translation (dx, dy) and the identity
    rotation, and from the default pose it ends at (dx, dy) facing +x. *)
Theorem exp_straight (p : Pose2d.t) (dx dy : R) :
  Pose2d.exp p (Twist2d.mk dx dy 0)
  = Pose2d.add p
      (Transform2d.mk (Translation2d.mk dx dy) Rotation2d.default)
  /\ Pose2d.exp Pose2d.default (Twist2d.mk dx dy 0)
     = Pose2d.mk (Translation2d.mk dx dy) Rotation2d.default.
Proof.
  split; [apply exp_zero_turn |].
  rewrite exp_zero_turn. unfold Pose2d.add, Pose2d.default, _zero_rotation.
  cbn [Pose2d.translation Pose2d.rotation Transform2d.translation
       Transform2d.rotation].
  rewrite rotateBy_default. f_equal.
  - unfold Translation2d.add. cbn [Translation2d.x Translation2d.y].
    f_equal; ring.
  - unfold Rotation2d.add, Rotation2d.default.
    cbn [Rotation2d.cos Rotation2d.sin].
    replace (1 * 1 - 0 * 0) with 1 by ring.
    replace (1 * 0 + 0 * 1) with 0 by ring. apply of_xy_1_0.
Qed.

(** X16: a twist with constant curvature moves the default pose along a
    circle: for a turn of [theta] (at least 1e-9 in magnitude) over the arc
    length [radius * theta], the pose ends at
    [(radius sin theta, radius (1 - cos theta))], heading [theta]
    normalised into (-pi, pi]. *)
Theorem exp_arc (radius theta : R) :
  1e-9 <= Rabs theta ->
  Pose2d.exp Pose2d.default (Twist2d.mk (radius * theta) 0 theta)
  = Pose2d.mk
      (Translation2d.mk (radius * sin theta) (radius * (1 - cos theta)))
      (Rotation2d.mk (atan2 (sin theta) (cos theta)) (cos theta) (sin theta)).
Proof.
  intros Hth.
  assert (H0 : theta <> 0).
  { intros E. rewrite E, Rabs_R0 in Hth. lra. }
  rewrite (exp_transform _ _ _ theta (sin theta / theta)
             ((1 - cos theta) / theta)).
  2:{ destruct (Rlt_dec (Rabs theta) 1e-9); [lra | reflexivity]. }
  unfold Pose2d.add, Pose2d.default, _zero_rotation.
  cbn [Pose2d.translation Pose2d.rotation Transform2d.translation
       Transform2d.rotation].
  rewrite rotateBy_default. f_equal.
  - unfold Translation2d.add. cbn [Translation2d.x Translation2d.y].
    f_equal; field; assumption.
  - unfold Rotation2d.add, Rotation2d.default.
    cbn [Rotation2d.cos Rotation2d.sin].
    replace (1 * cos theta - 0 * sin theta) with (cos theta) by ring.
    replace (1 * sin theta + 0 * cos theta) with (sin theta) by ring.
    apply of_xy_on_circle.
    pose proof (sin2_cos2 theta) as H. unfold Rsqr in H. lra.
Qed.

Lemma exp_arc_witness :
  Pose2d.exp Pose2d.default (Twist2d.mk (5 * (PI / 2)) 0 (PI / 2))
  = Pose2d.mk
      (Translation2d.mk (5 * sin (PI / 2)) (5 * (1 - cos (PI / 2))))
      (Rotation2d.mk (atan2 (sin (PI / 2)) (cos (PI / 2)))
                     (cos (PI / 2)) (sin (PI / 2))).
Proof.
  apply (exp_arc 5 (PI / 2)).
  pose proof PI2_1. rewrite Rabs_right; lra.
Defined.

(** X17: the twist from a pose to itself is the zero twist. *)
Theorem log_self (p : Pose2d.t) :
  Rotation2d.constructed (Pose2d.rotation p) ->
  Pose2d.log p p = Twist2d.mk 0 0 0.
Proof.
  intros Hp. apply constructed_consistent in Hp.
  pose proof (sub_self_rotation _ Hp) as Hsub.
  pose proof (log_twist p p) as Hlog. cbv zeta in Hlog.
  assert (Hrot : Transform2d.rotation (Pose2d.sub p p) = Rotation2d.default)
    by exact Hsub.
  assert (Htr : Transform2d.translation (Pose2d.sub p p) = Translation2d.mk 0 0).
  { unfold Pose2d.sub, Translation2d.rotateBy, Translation2d.sub.
    cbn [Transform2d.translation Translation2d.x Translation2d.y].
    f_equal; ring. }
  rewrite Hrot, Htr in Hlog.
  cbn [Rotation2d.value Rotation2d.cos Rotation2d.sin Rotation2d.default
       Translation2d.x Translation2d.y] in Hlog.
  destruct (Rlt_dec (Rabs (1 - 1)) 1e-9) as [_ | Hn].
  2:{ exfalso. apply Hn. replace (1 - 1) with 0 by ring. rewrite Rabs_R0. lra. }
  rewrite Hlog.
  - f_equal; ring.
  - replace (1 - 1 / 12 * 0 ^ 2) with 1 by (simpl; lra).
    replace (0.5 * 0) with 0 by ring.
    rewrite hypot_0_r; lra.
Qed.

Lemma log_self_witness :
  Pose2d.log (Pose2d.of_xy 1 2 (Rotation2d.of_value 5))
             (Pose2d.of_xy 1 2 (Rotation2d.of_value 5))
  = Twist2d.mk 0 0 0.
Proof. apply log_self. constructor. Defined.



(** * Further properties of the kinematics classes *)

(** X19: converting field-relative speeds keeps the magnitude of the
    linear velocity and the angular rate, and at the identity robot angle
    it returns the speeds as given. *)
Theorem fromFieldRelativeSpeeds_magnitude
    (vx vy omega : R) (robotAngle : Rotation2d.t) :
  Rotation2d.constructed robotAngle ->
  let s := ChassisSpeeds.fromFieldRelativeSpeeds vx vy omega robotAngle in
  hypot (ChassisSpeeds.vx s) (ChassisSpeeds.vy s) = hypot vx vy
  /\ ChassisSpeeds.omega s = omega
  /\ ChassisSpeeds.fromFieldRelativeSpeeds vx vy omega Rotation2d.default
     = ChassisSpeeds.mk vx vy omega.
Proof.
  intros Hr s. apply constructed_consistent in Hr.
  pose proof (consistent_unit _ Hr) as U.
  unfold s, ChassisSpeeds.fromFieldRelativeSpeeds.
  cbn [ChassisSpeeds.vx ChassisSpeeds.vy ChassisSpeeds.omega
       Rotation2d.cos Rotation2d.sin Rotation2d.default].
  split; [| split].
  - unfold hypot. f_equal.
    set (c := Rotation2d.cos robotAngle) in *.
    set (sn := Rotation2d.sin robotAngle) in *.
    transitivity ((vx * vx + vy * vy) * (c * c + sn * sn)).
    + ring.
    + rewrite U. ring.
  - reflexivity.
  - f_equal; ring.
Qed.

Lemma fromFieldRelativeSpeeds_magnitude_witness :
  hypot
    (ChassisSpeeds.vx
       (ChassisSpeeds.fromFieldRelativeSpeeds 1 0 0.5
          (Rotation2d.fromDegrees (-90))))
    (ChassisSpeeds.vy
       (ChassisSpeeds.fromFieldRelativeSpeeds 1 0 0.5
          (Rotation2d.fromDegrees (-90))))
  = hypot 1 0.
Proof.
  apply (fromFieldRelativeSpeeds_magnitude 1 0 0.5 (Rotation2d.fromDegrees (-90))).
  unfold Rotation2d.fromDegrees. constructor.
Defined.

(** X20: what every kinematics object keeps: the module list and count
    given to the constructor (at least two), an inverse-kinematics matrix
    of 2N rows and 3 columns which is the matrix for the cached center of
    rotation, and a forward-kinematics matrix of 3 rows and 2N columns. *)
Theorem kinematics_invariant (pinv : Matrix -> Matrix)
    (wheels : list Translation2d.t) (k : SwerveDriveKinematics.t) :
  (forall a n, shape a n 3 -> shape (pinv a) 3 n) ->
  reachable pinv wheels k ->
  SwerveDriveKinematics.modules k = wheels
  /\ SwerveDriveKinematics.num_modules k = length wheels
  /\ (2 <= SwerveDriveKinematics.num_modules k)%nat
  /\ SwerveDriveKinematics._inverse_kinematics k
     = ik_matrix wheels (SwerveDriveKinematics._prev_cor k)
  /\ shape (SwerveDriveKinematics._inverse_kinematics k)
           (2 * SwerveDriveKinematics.num_modules k) 3
  /\ shape (SwerveDriveKinematics.forward_kinematics k)
           3 (2 * SwerveDriveKinematics.num_modules k).
Proof.
  intros Hshape Hreach.
  destruct (reachable_inv _ _ _ Hreach) as (Hm & Hn & Hlen & Hik & Hfk).
  rewrite Hn, Hik, Hfk.
  split; [assumption |]. split; [reflexivity |]. split; [assumption |].
  split; [reflexivity |]. split.
  - apply shape_rows_of.
  - apply Hshape. apply shape_rows_of.
Qed.

Lemma kinematics_invariant_witness :
  shape (SwerveDriveKinematics.forward_kinematics test_kinematics)
        3 (2 * SwerveDriveKinematics.num_modules test_kinematics).
Proof.
  apply (kinematics_invariant pinv_normal test_wheels test_kinematics).
  - apply pinv_normal_shape.
  - apply reachable_test.
Defined.

Lemma active_cor_again k cor :
  Translation2d.eq (active_cor k cor) cor = true.
Proof.
  unfold active_cor.
  destruct (Translation2d.eq (SwerveDriveKinematics._prev_cor k) cor) eqn:E.
  - exact E.
  - apply Translation2d_eq_refl.
Qed.

Lemma active_cor_stable k k' cor :
  SwerveDriveKinematics._prev_cor k' = active_cor k cor ->
  active_cor k' cor = active_cor k cor.
Proof.
  intros H. unfold active_cor at 1. rewrite H, active_cor_again. reflexivity.
Qed.

(** X21: the cache of the center of rotation: a call with the default
    center (the origin) always leaves the object the constructor built,
    and repeating a call with the same center changes nothing more. *)
Theorem cor_cache (pinv : Matrix -> Matrix)
    (wheels : list Translation2d.t) (k : SwerveDriveKinematics.t)
    (s s' : ChassisSpeeds.t) (centerOfRotation : Translation2d.t) :
  reachable pinv wheels k ->
  (exists states,
      SwerveDriveKinematics.toSwerveModuleStates k s _identity_translation
        = Ok (states, SwerveDriveKinematics.mk wheels (length wheels)
                        (ik_matrix wheels _identity_translation)
                        (pinv (ik_matrix wheels _identity_translation))
                        _identity_translation)
      /\ SwerveDriveKinematics.init pinv wheels
         = Ok (SwerveDriveKinematics.mk wheels (length wheels)
                 (ik_matrix wheels _identity_translation)
                 (pinv (ik_matrix wheels _identity_translation))
                 _identity_translation))
  /\ (exists states k' states',
        SwerveDriveKinematics.toSwerveModuleStates k s centerOfRotation
          = Ok (states, k')
        /\ SwerveDriveKinematics.toSwerveModuleStates k' s' centerOfRotation
           = Ok (states', k')).
Proof.
  intros Hreach. pose proof (reachable_inv _ _ _ Hreach) as Hinv.
  split.
  - rewrite (toSwerveModuleStates_ok _ _ k s _ Hinv).
    rewrite (active_cor_identity _ _ _ Hinv).
    destruct Hinv as (Hm & Hn & Hlen & Hik & Hfk).
    eexists. split.
    + rewrite Hfk. reflexivity.
    + now apply init_ok.
  - pose proof (toSwerveModuleStates_ok _ _ k s centerOfRotation Hinv) as H1.
    pose proof (reachable_inv _ _ _
                  (reach_step _ _ _ _ _ _ _ Hreach H1)) as Hinv'.
    pose proof (toSwerveModuleStates_ok _ _ _ s' centerOfRotation Hinv') as H2.
    assert (Hact :
      active_cor
        (SwerveDriveKinematics.mk wheels (length wheels)
           (ik_matrix wheels (active_cor k centerOfRotation))
           (SwerveDriveKinematics.forward_kinematics k)
           (active_cor k centerOfRotation)) centerOfRotation
      = active_cor k centerOfRotation)
      by (apply active_cor_stable; reflexivity).
    rewrite Hact in H2.
    eexists. eexists. eexists. split; [exact H1 | exact H2].
Qed.

Lemma cor_cache_witness :
  exists states k' states',
    SwerveDriveKinematics.toSwerveModuleStates test_kinematics
      (ChassisSpeeds.mk 0 0 1) FL = Ok (states, k')
    /\ SwerveDriveKinematics.toSwerveModuleStates k'
         (ChassisSpeeds.mk 1 0 0) FL = Ok (states', k').
Proof.
  apply (cor_cache pinv_normal test_wheels test_kinematics
           (ChassisSpeeds.mk 0 0 1) (ChassisSpeeds.mk 1 0 0) FL).
  apply reachable_test.
Defined.

Lemma hypot_scale (a b w : R) : hypot (a * w) (b * w) = Rabs w * hypot a b.
Proof.
  unfold hypot.
  replace (a * w * (a * w) + b * w * (b * w))
    with (Rsqr w * (a * a + b * b)) by (unfold Rsqr; ring).
  rewrite sqrt_mult; [| apply Rle_0_sqr | nra].
  now rewrite sqrt_Rsqr_abs.
Qed.

Lemma module_state_translation (vx vy : R) (cor : Translation2d.t)
    (modules : list Translation2d.t) :
  map (module_state (ChassisSpeeds.mk vx vy 0) cor) modules
  = repeat (SwerveModuleState.mk (hypot vx vy) (Rotation2d.of_xy vx vy))
           (length modules).
Proof.
  induction modules as [| m tl IH]; [reflexivity |].
  cbn [map length repeat]. rewrite IH. f_equal.
  unfold module_state, module_velocity.
  cbn [ChassisSpeeds.vx ChassisSpeeds.vy ChassisSpeeds.omega fst snd].
  replace (vx + _ * 0) with vx by ring.
  replace (vy + _ * 0) with vy by ring. reflexivity.
Qed.

(** X22: without rotation every module gets the same state: the speed of
    the chassis, in the direction of its velocity, whatever the center of
    rotation and the module positions. *)
Theorem pure_translation_states (pinv : Matrix -> Matrix)
    (wheels : list Translation2d.t) (k : SwerveDriveKinematics.t)
    (vx vy : R) (centerOfRotation : Translation2d.t) :
  reachable pinv wheels k ->
  exists states k',
    SwerveDriveKinematics.toSwerveModuleStates k (ChassisSpeeds.mk vx vy 0)
      centerOfRotation = Ok (states, k')
    /\ states = repeat (SwerveModuleState.mk (hypot vx vy)
                                             (Rotation2d.of_xy vx vy))
                       (length wheels).
Proof.
  intros Hreach. pose proof (reachable_inv _ _ _ Hreach) as Hinv.
  rewrite (toSwerveModuleStates_ok _ _ k _ _ Hinv).
  eexists. eexists. split; [reflexivity |].
  apply module_state_translation.
Qed.

Lemma pure_translation_states_witness :
  exists states k',
    SwerveDriveKinematics.toSwerveModuleStates test_kinematics
      (ChassisSpeeds.mk 5 0 0) _identity_translation = Ok (states, k')
    /\ states = repeat (SwerveModuleState.mk (hypot 5 0)
                                             (Rotation2d.of_xy 5 0))
                       (length test_wheels).
Proof.
  apply (pure_translation_states pinv_normal test_wheels test_kinematics).
  apply reachable_test.
Defined.

Lemma turning_states (omega : R) (cor : Translation2d.t)
    (modules : list Translation2d.t) :
  Forall2 (fun m st =>
             SwerveModuleState.speed st
             = Rabs omega * Translation2d.getDistance cor m
             /\ (1e-6 < SwerveModuleState.speed st ->
                 Rotation2d.cos (SwerveModuleState.angle st)
                 * (Translation2d.x m - Translation2d.x cor)
                 + Rotation2d.sin (SwerveModuleState.angle st)
                   * (Translation2d.y m - Translation2d.y cor) = 0))
          modules
          (map (module_state (ChassisSpeeds.mk 0 0 omega) cor) modules).
Proof.
  induction modules as [| m tl IH]; cbn [map]; constructor; [| exact IH].
  unfold module_state, module_velocity, Translation2d.getDistance.
  cbn [ChassisSpeeds.vx ChassisSpeeds.vy ChassisSpeeds.omega fst snd
       SwerveModuleState.speed SwerveModuleState.angle].
  rewrite !Rplus_0_l. split.
  - rewrite hypot_scale. f_equal. unfold hypot. f_equal. ring.
  - intros Hbig. rewrite (of_xy_large _ _ Hbig).
    cbn [Rotation2d.cos Rotation2d.sin].
    set (h := hypot _ _) in *. unfold Rdiv.
    transitivity
      (((- Translation2d.y m + Translation2d.y cor) * omega
        * (Translation2d.x m - Translation2d.x cor)
        + (Translation2d.x m - Translation2d.x cor) * omega
          * (Translation2d.y m - Translation2d.y cor)) * / h); [ring |].
    apply Rmult_eq_0_compat_r. ring.
Qed.

(** X23: turning on the spot about the center of rotation in force, every
    module moves at |omega| times its distance from that center, and every
    module faster than 1e-6 is steered perpendicular to its radius. *)
Theorem turn_in_place_states (pinv : Matrix -> Matrix)
    (wheels : list Translation2d.t) (k : SwerveDriveKinematics.t)
    (omega : R) (centerOfRotation : Translation2d.t) :
  reachable pinv wheels k ->
  let cor := active_cor k centerOfRotation in
  exists states k',
    SwerveDriveKinematics.toSwerveModuleStates k (ChassisSpeeds.mk 0 0 omega)
      centerOfRotation = Ok (states, k')
    /\ Forall2 (fun m st =>
                  SwerveModuleState.speed st
                  = Rabs omega * Translation2d.getDistance cor m
                  /\ (1e-6 < SwerveModuleState.speed st ->
                      Rotation2d.cos (SwerveModuleState.angle st)
                      * (Translation2d.x m - Translation2d.x cor)
                      + Rotation2d.sin (SwerveModuleState.angle st)
                        * (Translation2d.y m - Translation2d.y cor) = 0))
               wheels states.
Proof.
  intros Hreach cor. pose proof (reachable_inv _ _ _ Hreach) as Hinv.
  rewrite (toSwerveModuleStates_ok _ _ k _ _ Hinv). fold cor.
  eexists. eexists. split; [reflexivity |].
  apply turning_states.
Qed.

Lemma turn_in_place_states_witness :
  exists states k',
    SwerveDriveKinematics.toSwerveModuleStates test_kinematics
      (ChassisSpeeds.mk 0 0 (2 * PI)) FL = Ok (states, k')
    /\ Forall2 (fun m st =>
                  SwerveModuleState.speed st
                  = Rabs (2 * PI)
                    * Translation2d.getDistance
                        (active_cor test_kinematics FL) m
                  /\ (1e-6 < SwerveModuleState.speed st ->
                      Rotation2d.cos (SwerveModuleState.angle st)
                      * (Translation2d.x m
                         - Translation2d.x (active_cor test_kinematics FL))
                      + Rotation2d.sin (SwerveModuleState.angle st)
                        * (Translation2d.y m
                           - Translation2d.y (active_cor test_kinematics FL))
                        = 0))
               test_wheels states.
Proof.
  apply (turn_in_place_states pinv_normal test_wheels test_kinematics
           (2 * PI) FL).
  apply reachable_test.
Defined.

(** ** Forward kinematics on measured states *)

(** X24: on a robot whose modules are not all at one place, module states
    whose Cartesian velocities are exactly those of a chassis speed (about
    the robot center) give that chassis speed back, whatever the signs of
    the speeds and whichever center of rotation was used last. *)
Theorem toChassisSpeeds_exact (pinv : Matrix -> Matrix)
    (wheels : list Translation2d.t) (k : SwerveDriveKinematics.t)
    (wheel_states : list SwerveModuleState.t) (vx vy omega : R) :
  (forall a n, shape a n 3 -> shape (pinv a) 3 n) ->
  MoorePenrose (ik_matrix wheels _identity_translation)
               (pinv (ik_matrix wheels _identity_translation)) ->
  (exists a b, In a wheels /\ In b wheels /\ a <> b) ->
  reachable pinv wheels k ->
  cartesian wheel_states
  = mv (ik_matrix wheels _identity_translation) [vx; vy; omega] ->
  SwerveDriveKinematics.toChassisSpeeds k wheel_states
  = Ok (ChassisSpeeds.mk vx vy omega).
Proof.
  intros Hshape HMP Hdistinct Hreach Hcart.
  pose proof (reachable_inv _ _ _ Hreach) as Hinv.
  set (A := ik_matrix wheels _identity_translation) in *.
  assert (HA : shape A (length A) 3).
  { split; [reflexivity | apply shape_rows_of]. }
  assert (Hlen : length wheel_states = SwerveDriveKinematics.num_modules k).
  { destruct Hinv as (_ & Hn & _). rewrite Hn.
    apply (f_equal (@length R)) in Hcart.
    rewrite length_cartesian in Hcart. unfold mv in Hcart.
    rewrite length_map in Hcart.
    destruct (shape_rows_of
                (fun module => - Translation2d.y module
                               + Translation2d.y _identity_translation)
                (fun module => Translation2d.x module
                               - Translation2d.x _identity_translation)
                wheels) as [HlenA _].
    fold (ik_matrix wheels _identity_translation) in HlenA. fold A in HlenA.
    lia. }
  destruct (toChassisSpeeds_ok pinv wheels k wheel_states Hshape Hinv Hlen)
    as (c & Hc & Hvec).
  rewrite Hc. f_equal. fold A in Hvec. rewrite Hcart in Hvec.
  assert (HP : shape (pinv A) 3 (length A)) by now apply Hshape.
  pose proof (penrose_vec A (pinv A) [vx; vy; omega] HA HP HMP) as Hpen.
  rewrite <- Hvec in Hpen.
  apply (rows_of_injective _ _ wheels) in Hpen.
  - destruct c. simpl in Hpen. now injection Hpen as -> -> ->.
  - now apply distinct_modules_columns.
Qed.

Lemma toChassisSpeeds_exact_witness :
  SwerveDriveKinematics.toChassisSpeeds test_kinematics
    [SwerveModuleState.mk (-5) (Rotation2d.mk PI (-1) 0);
     SwerveModuleState.mk 5 Rotation2d.default;
     SwerveModuleState.mk 5 Rotation2d.default;
     SwerveModuleState.mk 5 Rotation2d.default]
  = Ok (ChassisSpeeds.mk 5 0 0).
Proof.
  apply (toChassisSpeeds_exact pinv_normal test_wheels).
  - apply pinv_normal_shape.
  - rewrite pinv_normal_test. apply moore_penrose_test.
  - apply test_wheels_distinct.
  - apply reachable_test.
  - unfold_matrices.
    cbn [cartesian flat_map app SwerveModuleState.speed SwerveModuleState.angle
         Rotation2d.cos Rotation2d.sin Rotation2d.default].
    list_eq; lra.
Defined.

Lemma dot_scale (f : R) (row v : list R) :
  dot row (map (fun x => x * f) v) = dot row v * f.
Proof.
  unfold dot. revert v. induction row as [| a row IH]; intros [| b v];
    cbn [map combine fold_right fst snd]; try ring.
  rewrite IH. ring.
Qed.

Lemma cartesian_scale (f : R) (ws : list SwerveModuleState.t) :
  cartesian (map (scale f) ws) = map (fun x => x * f) (cartesian ws).
Proof.
  unfold cartesian. induction ws as [| w tl IH]; [reflexivity |].
  cbn [map flat_map app]. rewrite IH. unfold scale.
  cbn [SwerveModuleState.speed SwerveModuleState.angle].
  f_equal; [ring | f_equal; ring].
Qed.

(** X25: forward kinematics is homogeneous: with every module speed
    multiplied by one factor (the angles kept), the chassis speed it
    returns is multiplied by that factor. *)
Theorem toChassisSpeeds_homogeneous (k : SwerveDriveKinematics.t)
    (wheel_states : list SwerveModuleState.t) (factor : R)
    (c : ChassisSpeeds.t) :
  SwerveDriveKinematics.toChassisSpeeds k wheel_states = Ok c ->
  SwerveDriveKinematics.toChassisSpeeds k (map (scale factor) wheel_states)
  = Ok (ChassisSpeeds.mk (ChassisSpeeds.vx c * factor)
                         (ChassisSpeeds.vy c * factor)
                         (ChassisSpeeds.omega c * factor)).
Proof.
  unfold SwerveDriveKinematics.toChassisSpeeds. rewrite length_map.
  destruct (Nat.eqb _ _); [| discriminate].
  fold (cartesian wheel_states). fold (cartesian (map (scale factor) wheel_states)).
  rewrite cartesian_scale. unfold matvec. rewrite length_map.
  destruct (forallb _ _); [| discriminate]. cbn [bind].
  rewrite (map_ext
             (fun row => dot row (map (fun x => x * factor)
                                      (cartesian wheel_states)))
             (fun row => dot row (cartesian wheel_states) * factor))
    by (intros row; apply dot_scale).
  rewrite <- (map_map (fun row => dot row (cartesian wheel_states))
                      (fun x => x * factor)).
  generalize (map (fun row => dot row (cartesian wheel_states))
                  (SwerveDriveKinematics.forward_kinematics k)).
  intros [| a [| b [| d [| e l]]]];
    cbn [map SwerveDriveKinematics.ChassisSpeeds_of_list];
    intros H; try discriminate; injection H as <-;
    cbn [ChassisSpeeds.vx ChassisSpeeds.vy ChassisSpeeds.omega];
    f_equal; f_equal; ring.
Qed.

Lemma toChassisSpeeds_homogeneous_witness :
  SwerveDriveKinematics.toChassisSpeeds test_kinematics
    (map (scale 2)
       [SwerveModuleState.mk 5 Rotation2d.default;
        SwerveModuleState.mk 5 Rotation2d.default;
        SwerveModuleState.mk 5 Rotation2d.default;
        SwerveModuleState.mk 5 Rotation2d.default])
  = Ok (ChassisSpeeds.mk (5 * 2) (0 * 2) (0 * 2)).
Proof.
  apply (toChassisSpeeds_homogeneous test_kinematics _ 2
           (ChassisSpeeds.mk 5 0 0)).
  apply toChassisSpeeds_cruising.
Defined.

(** ** normalizeWheelSpeeds: bounds and errors *)

Lemma max_abs_speed_nonneg h refs : 0 <= max_abs_speed h refs.
Proof.
  unfold max_abs_speed. induction refs as [| r refs IH]; cbn [fold_right].
  - lra.
  - eapply Rle_trans; [exact IH | apply Rmax_r].
Qed.

Lemma speed_le_max h refs r :
  In r refs -> Rabs (speed_at h r) <= max_abs_speed h refs.
Proof.
  unfold max_abs_speed. induction refs as [| r0 refs IH]; intros Hin.
  - destruct Hin.
  - cbn [fold_right]. destruct Hin as [-> | Hin].
    + apply Rmax_l.
    + eapply Rle_trans; [apply IH, Hin | apply Rmax_r].
Qed.

Lemma max_abs_speed_zero h refs :
  Forall (fun r => speed_at h r = 0) refs -> max_abs_speed h refs = 0.
Proof.
  unfold max_abs_speed. induction 1 as [| r refs Hr _ IH]; cbn [fold_right].
  - reflexivity.
  - rewrite IH, Hr, Rabs_R0. apply Rmax_left. lra.
Qed.

(** X26: for a non-empty list of distinct module-state objects with
    non-negative speeds and a non-negative limit, [normalizeWheelSpeeds]
    returns, and afterwards every listed speed lies between 0 and the
    limit, every angle is the one of before, and the speeds are in the
    proportions of before. *)
Theorem normalizeWheelSpeeds_bounded (h : SwerveDriveKinematics.heap)
    (moduleStates : list nat) (attainableMaxSpeed : R) :
  moduleStates <> [] ->
  NoDup moduleStates ->
  Forall (fun r => (r < length h)%nat) moduleStates ->
  Forall (fun r => 0 <= speed_at h r) moduleStates ->
  0 <= attainableMaxSpeed ->
  exists h',
    SwerveDriveKinematics.normalizeWheelSpeeds h moduleStates attainableMaxSpeed
      = Ok h'
    /\ (forall r, In r moduleStates ->
          0 <= speed_at h' r <= attainableMaxSpeed
          /\ SwerveModuleState.angle (SwerveDriveKinematics.read h' r)
             = SwerveModuleState.angle (SwerveDriveKinematics.read h r))
    /\ (forall r r', In r moduleStates -> In r' moduleStates ->
          speed_at h' r * speed_at h r' = speed_at h' r' * speed_at h r).
Proof.
  intros Hne Hnd Hin Hpos Ha.
  unfold SwerveDriveKinematics.normalizeWheelSpeeds.
  rewrite (py_max_nonneg h moduleStates Hne Hpos). cbn [bind].
  assert (Hbound : forall r, In r moduleStates ->
            0 <= speed_at h r <= max_abs_speed h moduleStates).
  { intros r Hr. rewrite Forall_forall in Hpos. specialize (Hpos r Hr).
    pose proof (speed_le_max h moduleStates r Hr) as Hle.
    rewrite Rabs_right in Hle by lra. lra. }
  set (M := max_abs_speed h moduleStates) in *.
  destruct (Rlt_dec attainableMaxSpeed M) as [Hlt | Hge].
  - destruct (Req_dec_T M 0) as [E | HM]; [lra |].
    destruct (loop_modify (scale (attainableMaxSpeed / M)) moduleStates h
                Hnd Hin) as [_ Hread].
    unfold scale in Hread.
    eexists. split; [reflexivity |].
    assert (Hsp : forall r, In r moduleStates ->
              speed_at
                (fold_left
                   (fun h' r0 =>
                      SwerveDriveKinematics.modify h' r0
                        (fun module =>
                           SwerveModuleState.mk
                             (SwerveModuleState.speed module
                              * (attainableMaxSpeed / M))
                             (SwerveModuleState.angle module)))
                   moduleStates h) r
              = speed_at h r * (attainableMaxSpeed / M)).
    { intros r Hr. unfold speed_at. rewrite Hread.
      destruct (in_dec Nat.eq_dec r moduleStates); [reflexivity | contradiction]. }
    split.
    + intros r Hr. split.
      * rewrite (Hsp r Hr). destruct (Hbound r Hr) as [H0 HM'].
        assert (HMpos : 0 < M) by lra.
        assert (Hq : 0 <= attainableMaxSpeed / M)
          by (apply Rmult_le_pos; [lra | left; now apply Rinv_0_lt_compat]).
        split; [now apply Rmult_le_pos |].
        replace attainableMaxSpeed with (M * (attainableMaxSpeed / M)) at 2
          by (field; lra).
        now apply Rmult_le_compat_r.
      * rewrite Hread.
        destruct (in_dec Nat.eq_dec r moduleStates); [reflexivity | contradiction].
    + intros r r' Hr Hr'. rewrite (Hsp r Hr), (Hsp r' Hr'). ring.
  - exists h. split; [reflexivity |]. split.
    + intros r Hr. destruct (Hbound r Hr). split; [lra | reflexivity].
    + intros r r' _ _. ring.
Qed.

Lemma normalizeWheelSpeeds_bounded_witness :
  exists h',
    SwerveDriveKinematics.normalizeWheelSpeeds test_heap [0; 1; 2; 3]%nat 5.5
      = Ok h'
    /\ forall r, In r [0; 1; 2; 3]%nat -> 0 <= speed_at h' r <= 5.5.
Proof.
  destruct (normalizeWheelSpeeds_bounded test_heap [0; 1; 2; 3]%nat 5.5)
    as (h' & Hcall & Hbounds & _).
  - discriminate.
  - repeat constructor; simpl; lia.
  - repeat constructor; simpl; lia.
  - unfold speed_at, SwerveDriveKinematics.read.
    repeat constructor; simpl; lra.
  - lra.
  - exists h'. split; [exact Hcall |].
    intros r Hr. now apply Hbounds.
Defined.

(** X27: on non-negative speeds [normalizeWheelSpeeds] raises in two cases
    only: [ValueError] for an empty list, and [ZeroDivisionError] when the
    limit is negative and every listed speed is zero. *)
Theorem normalizeWheelSpeeds_raises (h : SwerveDriveKinematics.heap)
    (moduleStates : list nat) (attainableMaxSpeed : R) :
  Forall (fun r => 0 <= speed_at h r) moduleStates ->
  ((exists e,
       SwerveDriveKinematics.normalizeWheelSpeeds h moduleStates
         attainableMaxSpeed = Raise e)
   <-> moduleStates = []
       \/ (attainableMaxSpeed < 0
           /\ Forall (fun r => speed_at h r = 0) moduleStates))
  /\ (moduleStates = [] ->
      SwerveDriveKinematics.normalizeWheelSpeeds h moduleStates
        attainableMaxSpeed = Raise ValueError)
  /\ (moduleStates <> [] -> attainableMaxSpeed < 0 ->
      Forall (fun r => speed_at h r = 0) moduleStates ->
      SwerveDriveKinematics.normalizeWheelSpeeds h moduleStates
        attainableMaxSpeed = Raise ZeroDivisionError).
Proof.
  intros Hpos.
  destruct moduleStates as [| r0 refs].
  { split; [| split].
    - split; [intros _; now left | intros _; now exists ValueError].
    - reflexivity.
    - intros Hne. now contradiction Hne. }
  assert (Hne : r0 :: refs <> []) by discriminate.
  unfold SwerveDriveKinematics.normalizeWheelSpeeds.
  rewrite (py_max_nonneg h (r0 :: refs) Hne Hpos). cbn [bind].
  assert (Hzero : max_abs_speed h (r0 :: refs) = 0 ->
                  Forall (fun r => speed_at h r = 0) (r0 :: refs)).
  { intros E. apply Forall_forall. intros r Hr.
    pose proof (speed_le_max h _ r Hr) as Hle. rewrite E in Hle.
    pose proof (Rabs_pos (speed_at h r)) as Hge.
    destruct (Req_dec (speed_at h r) 0) as [E0 | N0]; [assumption |].
    pose proof (Rabs_pos_lt _ N0). lra. }
  pose proof (max_abs_speed_zero h (r0 :: refs)) as Hall.
  set (M := max_abs_speed h (r0 :: refs)) in *.
  split; [| split].
  - destruct (Rlt_dec attainableMaxSpeed M) as [Hlt | Hge].
    + destruct (Req_dec_T M 0) as [E | HM].
      * split; [| intros _; now exists ZeroDivisionError].
        intros _. right. split; [lra | now apply Hzero].
      * split; [intros [e He]; discriminate |].
        intros [Hnil | [_ Hz]]; [discriminate |].
        exfalso. apply HM. now apply Hall.
    + split; [intros [e He]; discriminate |].
      intros [Hnil | [Hneg Hz]]; [discriminate |].
      exfalso. apply Hge. rewrite (Hall Hz). exact Hneg.
  - intros Hnil. discriminate.
  - intros _ Hneg Hz. rewrite (Hall Hz) in *.
    destruct (Rlt_dec attainableMaxSpeed 0) as [_ | Hn]; [| contradiction].
    destruct (Req_dec_T 0 0) as [_ | Hn]; [reflexivity | now contradiction Hn].
Qed.

Lemma normalizeWheelSpeeds_raises_witness :
  SwerveDriveKinematics.normalizeWheelSpeeds
    [SwerveModuleState.default; SwerveModuleState.default] [0; 1]%nat (-1)
  = Raise ZeroDivisionError.
Proof.
  apply (normalizeWheelSpeeds_raises
           [SwerveModuleState.default; SwerveModuleState.default]
           [0; 1]%nat (-1)).
  - unfold speed_at, SwerveDriveKinematics.read.
    repeat constructor; simpl; lra.
  - discriminate.
  - lra.
  - unfold speed_at, SwerveDriveKinematics.read.
    repeat constructor.
Defined.

(** ** Odometry over several calls *)

(** X28: an update during which the heading did not change (the stored
    angle is the gyro angle plus the offset, as the previous update left
    it) moves the pose along a straight line: the robot-relative
    displacement (vx dt, vy dt) is turned by the rotation of the stored
    pose and added to its translation. *)
Theorem updateWithTime_straight (self : SwerveDriveOdometry.t)
    (previous currentTime : R) (gyroAngle : Rotation2d.t)
    (module_states : list SwerveModuleState.t) (speeds : ChassisSpeeds.t) :
  SwerveDriveKinematics.toChassisSpeeds (SwerveDriveOdometry.kinematics self)
    module_states = Ok speeds ->
  SwerveDriveOdometry._previous_time self = Some previous ->
  SwerveDriveOdometry._previous_angle self
  = Rotation2d.add gyroAngle (SwerveDriveOdometry._gyro_offset self) ->
  let dt := currentTime - previous in
  fst (SwerveDriveOdometry.updateWithTime self currentTime gyroAngle
         module_states)
  = Ok (Pose2d.mk
          (Translation2d.add
             (Pose2d.translation (SwerveDriveOdometry._pose self))
             (Translation2d.rotateBy
                (Translation2d.mk (ChassisSpeeds.vx speeds * dt)
                                  (ChassisSpeeds.vy speeds * dt))
                (Pose2d.rotation (SwerveDriveOdometry._pose self))))
          (Rotation2d.add gyroAngle (SwerveDriveOdometry._gyro_offset self))).
Proof.
  intros Hfk Htime Hangle dt.
  unfold SwerveDriveOdometry.updateWithTime.
  cbn [SwerveDriveOdometry.kinematics SwerveDriveOdometry._pose
       SwerveDriveOdometry._previous_time SwerveDriveOdometry._previous_angle
       SwerveDriveOdometry._gyro_offset].
  rewrite Hfk, Htime, Hangle. cbn [fst SwerveDriveOdometry.delta_time].
  rewrite sub_self_rotation by apply of_xy_consistent.
  unfold Rotation2d.getRadians, Rotation2d.default. cbn [Rotation2d.value].
  fold Rotation2d.default. rewrite exp_zero_turn.
  reflexivity.
Qed.

Lemma updateWithTime_straight_witness :
  fst (SwerveDriveOdometry.updateWithTime
         (SwerveDriveOdometry.mk test_kinematics Pose2d.default (Some 1)
            (Rotation2d.add Rotation2d.default Rotation2d.default)
            Rotation2d.default)
         3 Rotation2d.default
         [SwerveModuleState.mk 5 Rotation2d.default;
          SwerveModuleState.mk 5 Rotation2d.default;
          SwerveModuleState.mk 5 Rotation2d.default;
          SwerveModuleState.mk 5 Rotation2d.default])
  = Ok (Pose2d.mk
          (Translation2d.add (Pose2d.translation Pose2d.default)
             (Translation2d.rotateBy
                (Translation2d.mk (5 * (3 - 1)) (0 * (3 - 1)))
                (Pose2d.rotation Pose2d.default)))
          (Rotation2d.add Rotation2d.default Rotation2d.default)).
Proof.
  apply (updateWithTime_straight
           (SwerveDriveOdometry.mk test_kinematics Pose2d.default (Some 1)
              (Rotation2d.add Rotation2d.default Rotation2d.default)
              Rotation2d.default)
           1 3 Rotation2d.default _ (ChassisSpeeds.mk 5 0 0)).
  - apply toChassisSpeeds_cruising.
  - reflexivity.
  - reflexivity.
Defined.




(** X30: an update with the wrong number of module states raises
    [AssertionError] and leaves the pose, the previous angle and the gyro
    offset, but its timestamp is already stored: the next update
    integrates the speeds over the time since the failed call. *)
Theorem updateWithTime_failed (pinv : Matrix -> Matrix)
    (wheels : list Translation2d.t) (self : SwerveDriveOdometry.t)
    (currentTime : R) (gyroAngle : Rotation2d.t)
    (module_states : list SwerveModuleState.t) :
  reachable pinv wheels (SwerveDriveOdometry.kinematics self) ->
  length module_states <> length wheels ->
  let call := SwerveDriveOdometry.updateWithTime self currentTime gyroAngle
                module_states in
  fst call = Raise AssertionError
  /\ SwerveDriveOdometry.getPose (snd call) = SwerveDriveOdometry.getPose self
  /\ SwerveDriveOdometry._previous_angle (snd call)
     = SwerveDriveOdometry._previous_angle self
  /\ SwerveDriveOdometry._gyro_offset (snd call)
     = SwerveDriveOdometry._gyro_offset self
  /\ SwerveDriveOdometry._previous_time (snd call) = Some currentTime
  /\ forall nextTime nextGyro next_states speeds,
       SwerveDriveKinematics.toChassisSpeeds
         (SwerveDriveOdometry.kinematics self) next_states = Ok speeds ->
       let angle :=
         Rotation2d.add nextGyro (SwerveDriveOdometry._gyro_offset self) in
       fst (SwerveDriveOdometry.updateWithTime (snd call) nextTime nextGyro
              next_states)
       = Ok (Pose2d.mk
               (Pose2d.translation
                  (Pose2d.exp (SwerveDriveOdometry._pose self)
                     (Twist2d.mk
                        (ChassisSpeeds.vx speeds * (nextTime - currentTime))
                        (ChassisSpeeds.vy speeds * (nextTime - currentTime))
                        (Rotation2d.value
                           (Rotation2d.sub angle
                              (SwerveDriveOdometry._previous_angle self))))))
               angle).
Proof.
  intros Hreach Hlen call.
  destruct (reachable_inv _ _ _ Hreach) as (_ & Hn & _).
  assert (Hraise : SwerveDriveKinematics.toChassisSpeeds
                     (SwerveDriveOdometry.kinematics self) module_states
                   = Raise AssertionError).
  { apply toChassisSpeeds_raises. now rewrite Hn. }
  unfold call.
  rewrite (updateWithTime_raises self currentTime gyroAngle module_states
             AssertionError Hraise).
  cbn [fst snd SwerveDriveOdometry.getPose SwerveDriveOdometry._pose
       SwerveDriveOdometry._previous_angle SwerveDriveOdometry._gyro_offset
       SwerveDriveOdometry._previous_time].
  do 5 (split; [reflexivity |]).
  intros nextTime nextGyro next_states speeds Hfk.
  unfold SwerveDriveOdometry.updateWithTime.
  cbn [SwerveDriveOdometry.kinematics SwerveDriveOdometry._pose
       SwerveDriveOdometry._previous_time SwerveDriveOdometry._previous_angle
       SwerveDriveOdometry._gyro_offset SwerveDriveOdometry.delta_time].
  rewrite Hfk. reflexivity.
Qed.

Lemma updateWithTime_failed_witness :
  let self := SwerveDriveOdometry.init test_kinematics Rotation2d.default None in
  let call := SwerveDriveOdometry.updateWithTime self 2 Rotation2d.default
                [SwerveModuleState.default] in
  fst call = Raise AssertionError
  /\ SwerveDriveOdometry._previous_time (snd call) = Some 2.
Proof.
  intros self call.
  destruct (updateWithTime_failed pinv_normal test_wheels self 2
              Rotation2d.default [SwerveModuleState.default])
    as (Hraise & _ & _ & _ & Htime & _).
  - apply reachable_test.
  - simpl. lia.
  - split; assumption.
Defined.
